(** * yazr: the memoizing decorator and the cache-owning node tree

    A shallow embedding of [src/yazr/cache.py] ([memoize], its [decorator],
    [wrapper] and [__cache_key__]) and of [src/yazr/nodes/base.py] and
    [src/yazr/nodes/node.py] ([BaseNode.cache], [Node.__init__]).

    Python objects are values of an inductive type, tuples are lists of
    values, a keyword dictionary is an association list in insertion order,
    exceptions are the left summand of a result, and the effects of a call
    (the persistent stores, the clock, the log of store operations and of
    calls of the wrapped function) are threaded through a state and error
    monad. *)

From Stdlib Require Import ZArith QArith Qcanon String Ascii List Permutation Sorted Lia.
From Stdlib Require Import OrderedTypeEx.
From stdpp Require Import base decidable option list sorting strings gmap.

Open Scope Z_scope.
Open Scope string_scope.
Open Scope list_scope.

(** ** Python values *)

Module Py.

(** The classes of the values that occur as arguments, results and key
    components ([type(arg)] in typed keys). *)
Inductive pytype : Type :=
| t_NoneType
| t_bool
| t_int
| t_float
| t_str
| t_type
| t_function.

#[global] Instance pytype_eq_dec : EqDecision pytype.
Proof. solve_decision. Defined.

(** A function object carries what [diskcache.core.full_name] reads,
    [__module__] and [__qualname__], and the names of its parameters after
    the instance, which decide the parameter a positional argument goes
    to. *)
Record function : Type := mkFunction {
  __module__ : string;
  __qualname__ : string;
  co_varnames : list string
}.

#[global] Instance function_eq_dec : EqDecision function.
Proof. solve_decision. Defined.

(** Finite floats are canonical rationals, so that equal floats are equal
    terms; [nan] and the infinities are outside the model. *)
Inductive value : Type :=
| VNone
| VBool (b : bool)
| VInt (z : Z)
| VFloat (q : Qc)
| VStr (s : string)
| VType (t : pytype)
| VFunc (f : function).

#[global] Instance value_eq_dec : EqDecision value.
Proof.
  intros x y. unfold Decision.
  decide equality; apply (decide (_ = _)).
Defined.

(** [type(v)] *)
Definition type_of (v : value) : pytype :=
  match v with
  | VNone => t_NoneType
  | VBool _ => t_bool
  | VInt _ => t_int
  | VFloat _ => t_float
  | VStr _ => t_str
  | VType _ => t_type
  | VFunc _ => t_function
  end.

(** [callable(v)]: functions and classes are callable. *)
Definition callable (v : value) : bool :=
  match v with
  | VType _ | VFunc _ => true
  | _ => false
  end.

(** The number a [bool], [int] or [float] stands for. *)
Definition numeric (v : value) : option Q :=
  match v with
  | VBool b => Some (inject_Z (Z.b2z b))
  | VInt z => Some (inject_Z z)
  | VFloat q => Some (this q)
  | _ => None
  end.

(** [a == b]: numbers compare by value across [bool], [int] and [float];
    everything else compares within its own class. *)
Definition eqb (a b : value) : bool :=
  match numeric a, numeric b with
  | Some x, Some y => Qeq_bool x y
  | None, None => bool_decide (a = b)
  | _, _ => false
  end.

(** [t1 == t2] on tuples: same length and pairwise [==]. *)
Fixpoint tuple_eqb (t1 t2 : list value) : bool :=
  match t1, t2 with
  | [], [] => true
  | a :: t1', b :: t2' => eqb a b && tuple_eqb t1' t2'
  | _, _ => false
  end.

(** Exceptions raised by the modelled code. [Raised] stands for whatever
    else a wrapped function raises. *)
Inductive exn : Type :=
| TypeError (msg : string)
| AttributeError (msg : string)
| TreeError (msg : string)
| Timeout
| Raised (what : string).

End Py.

Import Py.

(** A tuple, and the keyword dictionary of a call in insertion order (its
    names are pairwise distinct). *)
Definition tuple : Type := list value.
Definition kwargs_t : Type := list (string * value).

(** The value a call [f(instance, *args, **kwargs)] passes for the
    parameter [name]: the positional argument at the position of [name]
    among the parameters, else the keyword argument of that name. *)
Fixpoint passed_by_position (params : list string) (args : tuple) (name : string)
    : option value :=
  match params, args with
  | p :: params', a :: args' =>
      if String.eqb p name then Some a else passed_by_position params' args' name
  | _, _ => None
  end.

Fixpoint passed_by_keyword (kwargs : kwargs_t) (name : string) : option value :=
  match kwargs with
  | [] => None
  | (k, v) :: kwargs' => if String.eqb k name then Some v else passed_by_keyword kwargs' name
  end.

Definition passed (f : function) (args : tuple) (kwargs : kwargs_t) (name : string)
    : option value :=
  match passed_by_position (co_varnames f) args name with
  | Some v => Some v
  | None => passed_by_keyword kwargs name
  end.

(** The dictionary with the value of the keyword [name] replaced. *)
Definition set_kwarg (name : string) (v : value) (kwargs : kwargs_t) : kwargs_t :=
  List.map (fun item => if String.eqb item.1 name then (name, v) else item) kwargs.

(** ** Key derivation ([diskcache.core.full_name], [args_to_key]) *)

Module Key.

(** Modelled from the spec: [full_name] is imported from [diskcache.core]
    and is missing from the sources; the "fully-qualified automatic name
    derived from the wrapped callable" is the module and the qualified name
    of the function joined by a dot. *)
Definition full_name (func : function) : string :=
  String.append (__module__ func) (String.append "." (__qualname__ func)).

(** [x in ignore] *)
Definition py_in (x : value) (ignore : list value) : bool :=
  existsb (Py.eqb x) ignore.

(** [tuple(arg for index, arg in enumerate(args) if index not in ignore)],
    with the enumeration starting at [index]. *)
Fixpoint keep_args (ignore : list value) (index : nat) (args : tuple) : tuple :=
  match args with
  | [] => []
  | arg :: rest =>
      if py_in (VInt (Z.of_nat index)) ignore
      then keep_args ignore (S index) rest
      else arg :: keep_args ignore (S index) rest
  end.

(** [{key: val for key, val in kwargs.items() if key not in ignore}] *)
Definition keep_kwargs (ignore : list value) (kwargs : kwargs_t) : kwargs_t :=
  List.filter (fun item => negb (py_in (VStr item.1) ignore)) kwargs.

(** The order of [sorted] on the items of a dictionary: its names are
    pairwise distinct, so two items are always ordered by their names, which
    compare as strings. *)
Definition item_le (x y : string * value) : Prop :=
  String.leb x.1 y.1 = true.

(** The same order on the names themselves. *)
Definition name_le (a b : string) : Prop := String.leb a b = true.

#[global] Instance item_le_dec : RelDecision item_le.
Proof. intros x y. unfold item_le. apply _. Defined.

(** [sorted(kwargs.items())] *)
Definition sorted_items (kwargs : kwargs_t) : kwargs_t :=
  merge_sort item_le kwargs.

(** [for item in sorted_items: key += item] *)
Definition flatten_items (items : kwargs_t) : tuple :=
  flat_map (fun item => [VStr item.1; item.2]) items.

Definition types_of_args (args : tuple) : tuple :=
  List.map (fun arg => VType (type_of arg)) args.

Definition types_of_items (items : kwargs_t) : tuple :=
  List.map (fun item => VType (type_of item.2)) items.

Definition nonempty {A} (l : list A) : bool :=
  match l with [] => false | _ => true end.

(** Modelled from the spec: [args_to_key] is imported from [diskcache.core]
    and is missing from the sources. The key is the tuple the spec's Cache
    Key describes: the base, the positional arguments that are not ignored,
    a [None] separator, the keyword items that are not ignored in sorted
    order, and, when [typed], the types of the kept positional arguments
    and of the kept keyword values. As the docstring of [memoize] says,
    [ignore] holds "positional or keyword args to ignore": a positional
    argument is ignored by its index, a keyword argument by its name.
    [items] is only bound in the library when [kwargs] is not empty, where
    it is [sorted_items] of the kept entries. *)
Definition args_to_key (base args : tuple) (kwargs : kwargs_t)
    (typed : bool) (ignore : list value) : tuple :=
  let args := keep_args ignore 0 args in
  let key := base ++ args ++ [VNone] in
  let kwargs' := if nonempty kwargs then keep_kwargs ignore kwargs else kwargs in
  let items := sorted_items kwargs' in
  let key := if nonempty kwargs then key ++ flatten_items items else key in
  if typed then
    let key := key ++ types_of_args args in
    if nonempty kwargs' then key ++ types_of_items items else key
  else key.

End Key.

Import Key.

(** ** The persistent key-value cache ([diskcache.Cache]) *)

Module Store.

(** Modelled from the spec: the persistent key-value cache, which is
    imported from [diskcache] and is missing from the sources. A row of the
    cache table holds the stored value, the time it expires at ([None]:
    never) and its tag. *)
Record entry : Type := mkEntry {
  e_value : value;
  e_expire_time : option Qc;
  e_tag : option string
}.

(** The rows of one cache directory, at most one per key. The store
    finds a key by its serialized form, so two keys are the same row when
    they are the same tuple of the same values. *)
Definition store : Type := list (tuple * entry).

Fixpoint find (key : tuple) (st : store) : option entry :=
  match st with
  | [] => None
  | (k, e) :: st' => if decide (k = key) then Some e else find key st'
  end.

(** A row is served while its expiry time lies in the future. *)
Definition live (now : Qc) (e : entry) : bool :=
  match e_expire_time e with
  | None => true
  | Some t => bool_decide (now < t)%Qc
  end.

(** What a lookup reads: [None] is the miss, where [get] returns its
    [default]. *)
Definition select (st : store) (key : tuple) (now : Qc) : option value :=
  match find key st with
  | Some e => if live now e then Some (e_value e) else None
  | None => None
  end.

Definition remove (key : tuple) (st : store) : store :=
  List.filter (fun row => negb (bool_decide (row.1 = key))) st.

Definition upsert (key : tuple) (e : entry) (st : store) : store :=
  (key, e) :: remove key st.

(** Modelled from the spec: the store's retry-on-contention mode
    ([diskcache] is missing from the sources). An operation that meets
    [conflicts] transient lock conflicts goes through once they are over
    when it was asked to retry, and fails with [Timeout] at the first one
    otherwise. *)
Fixpoint transact (retry : bool) (conflicts : nat) : exn + unit :=
  match conflicts with
  | O => inr tt
  | S n => if retry then transact retry n else inl Timeout
  end.

(** A [Cache] object: its identity and the directory it was opened on. *)
Record Cache : Type := mkCache {
  id : nat;
  directory : string
}.

#[global] Instance Cache_eq_dec : EqDecision Cache.
Proof. solve_decision. Defined.

End Store.

Import Store.

(** ** The node tree ([bigtree.Node], [BaseNode], [Node]) *)

#[local] Set Warnings "-register-all".

(** A node with what the modelled code reads of it: its name, its parent
    ([None] for a root) and its [_cache] attribute ([None] when the
    attribute is not set). The [children] keyword of the constructor only
    re-parents other nodes and is left out. *)
Inductive BaseNode : Type :=
| mkNode (name : string) (parent : option BaseNode) (_cache : option Cache).

Definition name (self : BaseNode) : string :=
  match self with mkNode n _ _ => n end.

Definition parent (self : BaseNode) : option BaseNode :=
  match self with mkNode _ p _ => p end.

Definition _cache (self : BaseNode) : option Cache :=
  match self with mkNode _ _ c => c end.

(** [BaseNode.cache]: the owned cache, and on [AttributeError] the cache of
    the parent; reading [cache] off the [None] parent of a root raises
    [AttributeError] again. *)
Fixpoint cache (self : BaseNode) : exn + Cache :=
  match self with
  | mkNode _ parent _cache =>
      match _cache with
      | Some c => inr c
      | None =>
          match parent with
          | Some p => cache p
          | None => inl (AttributeError "'NoneType' object has no attribute 'cache'")
          end
      end
  end.

(** ** Effects *)

(** What a call leaves behind for an observer. *)
Inductive event : Type :=
| EvGet (c : Cache) (key : tuple) (retry : bool)
| EvSet (c : Cache) (key : tuple) (v : value) (expire : option Qc)
        (tag : option string) (retry : bool)
| EvCall (f : function) (instance : BaseNode) (args : tuple) (kwargs : kwargs_t).

Definition is_call (e : event) : bool :=
  match e with EvCall _ _ _ _ => true | _ => false end.

(** The retry flag of a store operation; [None] for a call. *)
Definition retry_of (e : event) : option bool :=
  match e with
  | EvGet _ _ r => Some r
  | EvSet _ _ _ _ _ r => Some r
  | EvCall _ _ _ _ => None
  end.

Section Effects.

(** The state the wrapped functions compute on, apart from the caches. *)
Context {U : Type}.

Record world : Type := mkWorld {
  disk : gmap string store;   (* the cache directories on disk *)
  clock : Qc;                 (* the time *)
  conflicts : list nat;       (* lock conflicts the coming store operations meet *)
  next_id : nat;              (* identity of the next object *)
  log : list event;           (* store operations and calls, latest first *)
  user : U
}.

(** Computations that raise or return, on a world. *)
Definition M (A : Type) : Type := world -> (exn + A) * world.

Definition ret {A} (a : A) : M A := fun w => (inr a, w).

Definition raise {A} (e : exn) : M A := fun w => (inl e, w).

Definition bind {A B} (m : M A) (k : A -> M B) : M B :=
  fun w =>
    match m w with
    | (inr a, w') => k a w'
    | (inl e, w') => (inl e, w')
    end.

Definition lift {A} (r : exn + A) : M A :=
  match r with
  | inr a => ret a
  | inl e => raise e
  end.

End Effects.

Arguments world U : clear implicits.
Arguments M U A : clear implicits.

Notation "'let*' x ':=' m 'in' k" := (bind m (fun x => k))
  (at level 10, x name, m at level 100, k at level 200).

(** ** Store operations and construction, as effects *)

Section Operations.

Context {U : Type}.

Definition rows (w : world U) (c : Cache) : store :=
  default [] (disk w !! directory c).

Definition record (e : event) : M U unit :=
  fun w => (inr tt, mkWorld (disk w) (clock w) (conflicts w) (next_id w) (e :: log w) (user w)).

(** The lock conflicts the next store operation meets. *)
Definition next_conflicts : M U nat :=
  fun w =>
    match conflicts w with
    | [] => (inr O, w)
    | n :: rest => (inr n, mkWorld (disk w) (clock w) rest (next_id w) (log w) (user w))
    end.

Definition write_rows (c : Cache) (st : store) : M U unit :=
  fun w => (inr tt, mkWorld (<[directory c := st]> (disk w)) (clock w) (conflicts w)
                            (next_id w) (log w) (user w)).

(** Modelled from the spec: [Cache.get(key, default=ENOVAL, retry)]. No
    object read back from the store is the [ENOVAL] sentinel, so the result
    is an option and [None] is [ENOVAL]. *)
Definition Cache_get (c : Cache) (key : tuple) (retry : bool) : M U (option value) :=
  let* _ := record (EvGet c key retry) in
  let* n := next_conflicts in
  let* _ := lift (transact retry n) in
  fun w => (inr (select (rows w c) key (clock w)), w).

(** Modelled from the spec: [Cache.set(key, value, expire, tag, retry)];
    the row expires [expire] seconds from now. *)
Definition Cache_set (c : Cache) (key : tuple) (v : value) (expire : option Qc)
    (tag : option string) (retry : bool) : M U bool :=
  let* _ := record (EvSet c key v expire tag retry) in
  let* n := next_conflicts in
  let* _ := lift (transact retry n) in
  let* _ := (fun w =>
    let expire_time := option_map (fun e => (clock w + e)%Qc) expire in
    write_rows c (upsert key (mkEntry v expire_time tag) (rows w c)) w) in
  ret true.

(** Modelled from the spec: [Cache(directory)], the "constructor taking a
    filesystem location". It makes a new object on the directory, which it
    creates when it is not there. *)
Definition Cache_new (directory : string) : M U Cache :=
  fun w =>
    let c := mkCache (next_id w) directory in
    (inr c, mkWorld (<[directory := rows w c]> (disk w)) (clock w) (conflicts w)
                    (S (next_id w)) (log w) (user w)).

(** Time passing between two calls. *)
Definition tick (d : Qc) (w : world U) : world U :=
  mkWorld (disk w) (clock w + d)%Qc (conflicts w) (next_id w) (log w) (user w).

(** [Node.__init__(name, cache_dir_path, parent=...)]. [super().__init__]
    links the node under [parent]; the paths built here are plain, so
    [pathlib.Path] and the cache keep them as they are. *)
Definition Node___init__ (name : string) (cache_dir_path : option string)
    (parent : option BaseNode) : M U BaseNode :=
  if decide (name = "") then
    raise (TreeError "Node must have a str as `name` attribute")
  else
    match parent with
    | None =>
        let cache_dir_path :=
          match cache_dir_path with
          | None => String.append "/tmp/yazr_" (String.append name ".cache")
          | Some path => path
          end in
        let* c := Cache_new cache_dir_path in
        ret (mkNode name None (Some c))
    | Some p => ret (mkNode name (Some p) None)
    end.

(** A [BaseNode] made directly has the constructor of [bigtree.Node]: no
    cache is made. *)
Definition BaseNode___init__ (name : string) (parent : option BaseNode) : M U BaseNode :=
  if decide (name = "") then
    raise (TreeError "Node must have a `name` attribute")
  else ret (mkNode name parent None).

End Operations.

(** ** [memoize] *)

Section Memoize.

Context {U : Type}.

(** The arguments of [memoize], captured by the closures it returns. *)
Record config : Type := mkConfig {
  cfg_name : value;            (* [None], or the explicit base *)
  typed : bool;
  expire : option Qc;
  tag : option string;
  ignore : list value
}.

(** A wrapped callable: the function object and what calling it does, on
    the state of the functions. *)
Record callable_t : Type := mkCallable {
  fn : function;
  body : BaseNode -> tuple -> kwargs_t -> U -> (exn + value) * U
}.

(** [memoize(name, typed, expire, tag, ignore)]: the decorator is the
    closure over the configuration. *)
Definition memoize (name : value) (typed : bool) (expire : option Qc)
    (tag : option string) (ignore : list value) : exn + config :=
  if callable name then inl (TypeError "name cannot be callable")
  else inr (mkConfig name typed expire tag ignore).

(** [base = (full_name(func),) if name is None else (name,)] *)
Definition base (cfg : config) (func : callable_t) : tuple :=
  match cfg_name cfg with
  | VNone => [VStr (full_name (fn func))]
  | name => [name]
  end.

(** [wrapper.__cache_key__] on the arguments after the instance *)
Definition __cache_key__ (cfg : config) (func : callable_t)
    (args : tuple) (kwargs : kwargs_t) : tuple :=
  args_to_key (base cfg func) args kwargs (typed cfg) (ignore cfg).

(** [func(instance, *args, **kwargs)] *)
Definition call (func : callable_t) (instance : BaseNode) (args : tuple)
    (kwargs : kwargs_t) : M U value :=
  let* _ := record (EvCall (fn func) instance args kwargs) in
  fun w =>
    let '(r, u) := body func instance args kwargs (user w) in
    (r, mkWorld (disk w) (clock w) (conflicts w) (next_id w) (log w) u).

(** [expire is None or expire > 0] *)
Definition stores (expire : option Qc) : bool :=
  match expire with
  | None => true
  | Some e => bool_decide (0 < e)%Qc
  end.

(** [wrapper(instance, *args, **kwargs)] of [decorator(func)] *)
Definition wrapper (cfg : config) (func : callable_t) (instance : BaseNode)
    (args : tuple) (kwargs : kwargs_t) : M U value :=
  let key := __cache_key__ cfg func args kwargs in
  let* c := lift (cache instance) in
  let* result := Cache_get c key true in
  match result with
  | None =>
      let* result := call func instance args kwargs in
      if stores (expire cfg) then
        let* c := lift (cache instance) in
        let* _ := Cache_set c key result (expire cfg) (tag cfg) true in
        ret result
      else ret result
  | Some result => ret result
  end.

(** Applying [memoize] as the decorator itself, [@memoize] without
    parentheses, passes the function as [name]. *)
Definition memoize_bare (func : callable_t) : exn + config :=
  memoize (VFunc (fn func)) false None None [].

End Memoize.

Arguments callable_t U : clear implicits.

(** ** Ownership *)

(** Neither the node nor any of its ancestors has the [_cache] attribute. *)
Fixpoint no_owner (self : BaseNode) : bool :=
  match self with
  | mkNode _ parent _cache =>
      match _cache with
      | Some _ => false
      | None =>
          match parent with
          | Some p => no_owner p
          | None => true
          end
      end
  end.

Definition is_AttributeError {A} (r : exn + A) : bool :=
  match r with
  | inl (AttributeError _) => true
  | _ => false
  end.

(** The number of logged events that satisfy [p]. *)
Definition count (p : event -> bool) (l : list event) : nat :=
  length (List.filter p l).

Definition is_get (e : event) : bool :=
  match e with EvGet _ _ _ => true | _ => false end.

Definition is_set (e : event) : bool :=
  match e with EvSet _ _ _ _ _ _ => true | _ => false end.

(** ** Worlds along a call *)

Section Worlds.

Context {U : Type}.

(** The world after a store operation was logged and took its turn at the
    lock. *)
Definition after_op (e : event) (w : world U) : world U :=
  mkWorld (disk w) (clock w) (tail (conflicts w)) (next_id w) (e :: log w) (user w).

(** The world after the wrapped function ran and left the state [u]. *)
Definition after_call (e : event) (u : U) (w : world U) : world U :=
  mkWorld (disk w) (clock w) (conflicts w) (next_id w) (e :: log w) u.

(** The world after a write that was asked to retry. *)
Definition after_set (c : Cache) (key : tuple) (v : value) (expire : option Qc)
    (tag : option string) (w : world U) : world U :=
  let expire_time := option_map (fun e => (clock w + e)%Qc) expire in
  mkWorld (<[directory c := upsert key (mkEntry v expire_time tag) (rows w c)]> (disk w))
          (clock w) (tail (conflicts w)) (next_id w)
          (EvSet c key v expire tag true :: log w) (user w).

(** The same call made again and again, each after some time [d] has
    passed; the world it leaves. *)
Fixpoint run_calls (cfg : config) (func : callable_t U) (instance : BaseNode)
    (args : tuple) (kwargs : kwargs_t) (delays : list Qc) (w : world U) : world U :=
  match delays with
  | [] => w
  | d :: delays' =>
      run_calls cfg func instance args kwargs delays'
        (wrapper cfg func instance args kwargs (tick d w)).2
  end.

End Worlds.

(** ** Sample objects *)

Module Sample.

Definition three : value := VInt 3.
Definition three_f : value := VFloat (Q2Qc 3).

(** [def compute(self, n, verbose)], a method of a class [Calc] in a module
    [app]; it returns its first argument. *)
Definition compute_fn : function := mkFunction "app" "Calc.compute" ["n"; "verbose"].

Definition compute : callable_t nat :=
  mkCallable compute_fn
    (fun _ args _ calls => (inr (default VNone (head args)), S calls)).

(** [def broken(self, n)], which raises. *)
Definition broken : callable_t nat :=
  mkCallable (mkFunction "app" "Calc.broken" ["n"])
    (fun _ _ _ calls => (inl (Raised "ValueError"), S calls)).

(** [@memoize(typed=True, ignore={"verbose"})] *)
Definition typed_cfg : config := mkConfig VNone true None None [VStr "verbose"].

(** [@memoize(ignore={"verbose"})] *)
Definition untyped_cfg : config := mkConfig VNone false None None [VStr "verbose"].

(** [@memoize(ignore={1})]: the second argument after the instance. *)
Definition index_cfg : config := mkConfig VNone false None None [VInt 1].

(** [@memoize(expire=0)] and [@memoize(expire=10)] *)
Definition expire0_cfg : config := mkConfig VNone false (Some (Q2Qc 0)) None [].
Definition expire10_cfg : config := mkConfig VNone false (Some (Q2Qc 10)) None [].
Definition noexpire_cfg : config := mkConfig VNone false None None [].

(** A fresh machine, and the root [Node("foo")] made on it. *)
Definition w0 : world nat := mkWorld ∅ (Q2Qc 0) [] 0 [] 0%nat.
Definition foo_cache : Cache := mkCache 0 "/tmp/yazr_foo.cache".
Definition foo : BaseNode := mkNode "foo" None (Some foo_cache).
Definition w_foo : world nat := (Node___init__ "foo" None None w0).2.

(** The same machine when the next two store operations meet three and
    two lock conflicts. *)
Definition w_busy : world nat :=
  mkWorld (disk w_foo) (clock w_foo) [3%nat; 2%nat] (next_id w_foo) (log w_foo) (user w_foo).

End Sample.

(** ** Paths and display ([BaseNode.__repr__]) *)

(** The node and its ancestors, the node first and the root last. *)
Fixpoint chain (self : BaseNode) : list BaseNode :=
  match self with
  | mkNode _ parent _ =>
      self :: match parent with
              | Some p => chain p
              | None => []
              end
  end.

(** [sep.join(names)] *)
Fixpoint join (sep : string) (names : list string) : string :=
  match names with
  | [] => ""
  | [n] => n
  | n :: rest => String.append n (String.append sep (join sep rest))
  end.

(** Modelled from the spec: [path_name] is a property of [bigtree.Node],
    which is missing from the sources: the "ancestor names joined by a path
    separator", from the root down to the node, after a leading
    separator. The separator is the default ["/"]. *)
Definition path_name (self : BaseNode) : string :=
  String.append "/" (join "/" (List.map name (List.rev (chain self)))).

(** [BaseNode.__repr__], for a node of the class named [class_name]. *)
Definition __repr__ (class_name : string) (self : BaseNode) : string :=
  String.append class_name (String.append "(" (String.append (path_name self) ")")).

(** ** More sample objects *)

Module Fixture.

(** [@memoize("shared", tag="t", expire=10)] *)
Definition shared_cfg : config :=
  mkConfig (VStr "shared") false (Some (Q2Qc 10)) (Some "t") [].

(** [def other(self, n)], in the same module as [Sample.compute]; it
    returns the name of the node it is called on. *)
Definition whoami : callable_t nat :=
  mkCallable (mkFunction "app" "Calc.whoami" ["n"])
    (fun instance _ _ calls => (inr (VStr (name instance)), S calls)).

(** A child and a grandchild of [Sample.foo], made with [parent=]. *)
Definition b : BaseNode := mkNode "b" (Some Sample.foo) None.
Definition c : BaseNode := mkNode "c" (Some b) None.

(** A node without a cache anywhere above it. *)
Definition stray : BaseNode := mkNode "s" (Some (mkNode "r" None None)) None.

End Fixture.

(** * Properties *)

(** ** The order of the keyword items *)

Lemma leb_trans (a b c : string) :
  String.leb a b = true -> String.leb b c = true -> String.leb a c = true.
Proof.
  unfold String.leb. intros Hab Hbc.
  destruct (String.compare a b) eqn:Eab; try discriminate;
  destruct (String.compare b c) eqn:Ebc; try discriminate.
  - apply String_as_OT.cmp_eq in Eab. subst. now rewrite Ebc.
  - apply String_as_OT.cmp_eq in Eab. subst. now rewrite Ebc.
  - apply String_as_OT.cmp_eq in Ebc. subst. now rewrite Eab.
  - apply String_as_OT.cmp_lt in Eab, Ebc.
    pose proof (String_as_OT.lt_trans _ _ _ Eab Ebc) as Hac.
    apply String_as_OT.cmp_lt in Hac. unfold String_as_OT.cmp in Hac.
    now rewrite Hac.
Qed.

#[local] Instance item_le_trans : Transitive item_le.
Proof. intros x y z. unfold item_le. apply leb_trans. Qed.

#[local] Instance item_le_total : Total item_le.
Proof. intros x y. unfold item_le. apply String.leb_total. Qed.

Lemma item_name_inj (l : kwargs_t) (x y : string * value) :
  NoDup (l.*1) -> x ∈ l -> y ∈ l -> x.1 = y.1 -> x = y.
Proof.
  induction l as [|z l IH]; intros Hnd Hx Hy Hxy.
  - inversion Hx.
  - rewrite fmap_cons in Hnd. apply NoDup_cons in Hnd as [Hz Hnd].
    apply elem_of_cons in Hx as [->|Hx]; apply elem_of_cons in Hy as [->|Hy].
    + reflexivity.
    + exfalso. apply Hz. rewrite Hxy. apply list_elem_of_fmap. eauto.
    + exfalso. apply Hz. rewrite <- Hxy. apply list_elem_of_fmap. eauto.
    + now apply IH.
Qed.

(** Sorting forgets the insertion order of a dictionary. *)
Lemma sorted_items_perm (k1 k2 : kwargs_t) :
  NoDup (k1.*1) -> k1 ≡ₚ k2 -> sorted_items k1 = sorted_items k2.
Proof.
  intros Hnd Hp. unfold sorted_items.
  apply (Sorted_unique_strong item_le).
  - intros x1 x2 H1 H2 H12 H21.
    apply (item_name_inj k1); trivial.
    + now rewrite merge_sort_Permutation in H1.
    + rewrite merge_sort_Permutation in H2. now rewrite Hp.
    + now apply String.leb_antisym.
  - apply Sorted_merge_sort, _.
  - apply Sorted_merge_sort, _.
  - now rewrite !merge_sort_Permutation.
Qed.

Lemma keep_kwargs_NoDup (ign : list value) (kw : kwargs_t) :
  NoDup (kw.*1) -> NoDup ((keep_kwargs ign kw).*1).
Proof.
  induction kw as [|x kw IH]; intros Hnd; trivial.
  rewrite fmap_cons in Hnd. apply NoDup_cons in Hnd as [Hx Hnd].
  cbn [keep_kwargs List.filter]. fold (keep_kwargs ign kw).
  destruct (negb (py_in (VStr x.1) ign)); auto.
  rewrite fmap_cons. apply NoDup_cons. split; auto.
  intros Hin. apply Hx.
  apply list_elem_of_fmap in Hin as (y & -> & Hy).
  apply list_elem_of_fmap. exists y. split; trivial.
  apply list_elem_of_In. apply list_elem_of_In in Hy.
  unfold keep_kwargs in Hy. now apply filter_In in Hy.
Qed.

(** ** The shape of a key *)

(** The two tests on the emptiness of the dictionary only skip work: the
    key is always the concatenation of the same six parts. *)
Lemma args_to_key_parts (b args : tuple) (kwargs : kwargs_t) (typed : bool)
    (ign : list value) :
  let kept := keep_args ign 0 args in
  let items := sorted_items (keep_kwargs ign kwargs) in
  args_to_key b args kwargs typed ign =
    b ++ kept ++ [VNone] ++ flatten_items items ++
    (if typed then types_of_args kept ++ types_of_items items else []).
Proof.
  intros kept items. unfold args_to_key. fold kept.
  destruct kwargs as [|x kwargs].
  - subst items. cbn [nonempty keep_kwargs List.filter].
    change (sorted_items []) with (@nil (string * value)).
    cbn [flatten_items flat_map types_of_items List.map].
    destruct typed; now rewrite ?app_nil_r, <- ?app_assoc.
  - cbn [nonempty]. fold items.
    destruct typed.
    + destruct (keep_kwargs ign (x :: kwargs)) eqn:E.
      * subst items. change (sorted_items []) with (@nil (string * value)).
        cbn. now rewrite ?app_nil_r, <- ?app_assoc.
      * cbn [nonempty]. now rewrite <- ?app_assoc.
    + now rewrite ?app_nil_r, <- ?app_assoc.
Qed.

(** ** Tuple comparison *)

Lemma tuple_eqb_length (t1 t2 : tuple) :
  tuple_eqb t1 t2 = true -> length t1 = length t2.
Proof.
  revert t2. induction t1 as [|a t1 IH]; intros [|b t2]; simpl; try discriminate; trivial.
  intros H. apply andb_true_iff in H as [_ H]. f_equal. now apply IH.
Qed.

Lemma tuple_eqb_app (x1 x2 y1 y2 : tuple) :
  length x1 = length x2 ->
  tuple_eqb (x1 ++ y1) (x2 ++ y2) = tuple_eqb x1 x2 && tuple_eqb y1 y2.
Proof.
  revert x2. induction x1 as [|a x1 IH]; intros [|b x2]; simpl; try discriminate; trivial.
  intros H. injection H as H. now rewrite IH, andb_assoc.
Qed.

Lemma eqb_types (s t : pytype) : Py.eqb (VType s) (VType t) = true -> s = t.
Proof.
  unfold Py.eqb. simpl. intros H. apply bool_decide_eq_true in H. congruence.
Qed.

Lemma keep_args_length (ign : list value) (a1 a2 : tuple) :
  length a1 = length a2 ->
  forall n, length (keep_args ign n a1) = length (keep_args ign n a2).
Proof.
  revert a2. induction a1 as [|x a1 IH]; intros [|y a2]; simpl; try discriminate; trivial.
  intros H n. injection H as H.
  destruct (py_in (VInt (Z.of_nat n)) ign); simpl; auto.
Qed.

(** Equal type suffixes force equal types at every position that is kept. *)
Lemma kept_types_agree (ign : list value) (a1 a2 : tuple) :
  length a1 = length a2 ->
  forall n,
  tuple_eqb (types_of_args (keep_args ign n a1))
            (types_of_args (keep_args ign n a2)) = true ->
  forall (i : nat) (a b : value),
  py_in (VInt (Z.of_nat (n + i))) ign = false ->
  a1 !! i = Some a -> a2 !! i = Some b -> type_of a = type_of b.
Proof.
  revert a2. induction a1 as [|x a1 IH]; intros [|y a2]; simpl; try discriminate.
  intros H n Heq i a b Hi Ha Hb. injection H as H.
  destruct i as [|i].
  - simpl in Ha, Hb. injection Ha as ->. injection Hb as ->.
    rewrite Nat.add_0_r in Hi. rewrite Hi in Heq. simpl in Heq.
    apply andb_true_iff in Heq as [Heq _]. now apply eqb_types.
  - simpl in Ha, Hb.
    apply (IH a2 H (S n)) with (i := i); trivial.
    + destruct (py_in (VInt (Z.of_nat n)) ign); trivial.
      simpl in Heq. now apply andb_true_iff in Heq as [_ Heq].
    + now replace (S n + i)%nat with (n + S i)%nat by lia.
Qed.

Lemma flatten_items_length (items : kwargs_t) :
  length (flatten_items items) = (2 * length items)%nat.
Proof. induction items as [|x items IH]; simpl; lia. Qed.

Lemma types_of_items_length (items : kwargs_t) :
  length (types_of_items items) = length items.
Proof. unfold types_of_items. now rewrite length_map. Qed.

Lemma types_of_args_length (args : tuple) :
  length (types_of_args args) = length args.
Proof. unfold types_of_args. now rewrite length_map. Qed.

(** Under [typed], two calls with as many positional arguments have equal
    keys only if their type suffixes are equal, part by part. *)
Lemma typed_keys_agree (b a1 a2 : tuple) (kw1 kw2 : kwargs_t) (ign : list value) :
  length a1 = length a2 ->
  tuple_eqb (args_to_key b a1 kw1 true ign) (args_to_key b a2 kw2 true ign) = true ->
  tuple_eqb (types_of_args (keep_args ign 0 a1))
            (types_of_args (keep_args ign 0 a2)) = true /\
  tuple_eqb (types_of_items (sorted_items (keep_kwargs ign kw1)))
            (types_of_items (sorted_items (keep_kwargs ign kw2))) = true.
Proof.
  intros Hlen Heq.
  rewrite !args_to_key_parts in Heq. cbv zeta in Heq.
  pose proof (keep_args_length ign a1 a2 Hlen 0) as Hk.
  pose proof (tuple_eqb_length _ _ Heq) as Hl.
  rewrite !length_app, !flatten_items_length, !types_of_args_length,
    !types_of_items_length in Hl.
  simpl in Hl.
  assert (Hitems : length (sorted_items (keep_kwargs ign kw1)) =
                   length (sorted_items (keep_kwargs ign kw2))) by lia.
  rewrite tuple_eqb_app in Heq by reflexivity.
  apply andb_true_iff in Heq as [_ Heq].
  rewrite tuple_eqb_app in Heq by exact Hk.
  apply andb_true_iff in Heq as [_ Heq].
  rewrite tuple_eqb_app in Heq by reflexivity.
  apply andb_true_iff in Heq as [_ Heq].
  rewrite tuple_eqb_app in Heq by (rewrite !flatten_items_length; lia).
  apply andb_true_iff in Heq as [_ Heq].
  rewrite tuple_eqb_app in Heq by (rewrite !types_of_args_length; exact Hk).
  now apply andb_true_iff in Heq.
Qed.

(** *** Keyword arguments in typed keys *)

#[local] Instance name_le_trans : Transitive name_le.
Proof. intros a b c. apply leb_trans. Qed.

#[local] Instance name_le_antisym : AntiSymm (=) name_le.
Proof. intros a b. apply String.leb_antisym. Qed.

Lemma keep_kwargs_names_perm (ign : list value) (kw1 kw2 : kwargs_t) :
  kw1.*1 ≡ₚ kw2.*1 -> (keep_kwargs ign kw1).*1 ≡ₚ (keep_kwargs ign kw2).*1.
Proof.
  assert (Hnames : forall kw : kwargs_t,
             (keep_kwargs ign kw).*1 =
             List.filter (fun n => negb (py_in (VStr n) ign)) (kw.*1)).
  { induction kw as [|x kw IH]; trivial.
    unfold keep_kwargs in *. rewrite fmap_cons. cbn [List.filter].
    destruct (negb (py_in (VStr x.1) ign)); [rewrite fmap_cons|]; now rewrite IH. }
  rewrite !Hnames. generalize (kw1.*1) (kw2.*1). clear.
  induction 1 as [|x l l' _ IH|x y l|l l' l'' _ IH1 _ IH2]; cbn [List.filter].
  - reflexivity.
  - destruct (negb _); [now constructor|assumption].
  - destruct (negb (py_in (VStr y) ign)), (negb (py_in (VStr x) ign));
      try reflexivity. apply perm_swap.
  - now transitivity (List.filter (fun n => negb (py_in (VStr n) ign)) l').
Qed.

(** Dictionaries with the same names are sorted into the same order. *)
Lemma sorted_items_names (k1 k2 : kwargs_t) :
  k1.*1 ≡ₚ k2.*1 -> (sorted_items k1).*1 = (sorted_items k2).*1.
Proof.
  intros Hp. unfold sorted_items.
  apply (Sorted_unique name_le).
  - apply (Sorted_fmap fst item_le name_le); [auto|]. apply Sorted_merge_sort, _.
  - apply (Sorted_fmap fst item_le name_le); [auto|]. apply Sorted_merge_sort, _.
  - now rewrite !merge_sort_Permutation.
Qed.

Lemma item_types_agree (i1 i2 : kwargs_t) (n : string) (a b : value) :
  i1.*1 = i2.*1 -> NoDup (i1.*1) ->
  tuple_eqb (types_of_items i1) (types_of_items i2) = true ->
  (n, a) ∈ i1 -> (n, b) ∈ i2 -> type_of a = type_of b.
Proof.
  revert i2. induction i1 as [|[k1 v1] i1 IH]; intros [|[k2 v2] i2];
    try discriminate.
  - intros _ _ _ H. inversion H.
  - rewrite !fmap_cons. cbn [fst]. intros [= <- Hnames] Hnd Heq Ha Hb.
    apply NoDup_cons in Hnd as [Hk Hnd].
    cbn [types_of_items List.map tuple_eqb snd] in Heq.
    apply andb_true_iff in Heq as [Hty Heq].
    apply elem_of_cons in Ha as [Ha|Ha]; apply elem_of_cons in Hb as [Hb|Hb].
    + injection Ha as -> ->. injection Hb as ->. now apply eqb_types.
    + injection Ha as -> ->. exfalso. apply Hk. rewrite Hnames.
      apply list_elem_of_fmap. now exists (k1, b).
    + injection Hb as -> ->. exfalso. apply Hk.
      apply list_elem_of_fmap. now exists (k1, a).
    + now apply (IH i2).
Qed.

(** ** Cache keys *)

Section CacheKey.

Context {U : Type}.
Implicit Types (cfg : config) (func : callable_t U).

(** C1. The key is a function of the base, the positional arguments and
    the kept keyword items up to their order: two calls under the same
    base, typed flag and ignore set, with the same positional arguments,
    whose keyword dictionaries hold the same items once the ignored names
    are dropped, in whatever order, derive the same key. And when the
    configuration is typed, two calls with as many positional arguments
    derive keys that do not compare equal as soon as an argument that is
    kept differs in type between them, also when its two values are equal
    as numbers: a positional argument at the same position, or a keyword
    argument of the same name when the two dictionaries have the same
    names. *)
Theorem cache_key_identity cfg func :
  (forall cfg' func' (args : tuple) (kw1 kw2 : kwargs_t),
      base cfg func = base cfg' func' ->
      typed cfg = typed cfg' ->
      ignore cfg = ignore cfg' ->
      NoDup (kw1.*1) ->
      keep_kwargs (ignore cfg) kw1 ≡ₚ keep_kwargs (ignore cfg) kw2 ->
      __cache_key__ cfg func args kw1 = __cache_key__ cfg' func' args kw2) /\
  (typed cfg = true ->
   forall (args1 args2 : tuple) (kw1 kw2 : kwargs_t) (i : nat) (a b : value),
      length args1 = length args2 ->
      py_in (VInt (Z.of_nat i)) (ignore cfg) = false ->
      args1 !! i = Some a -> args2 !! i = Some b ->
      type_of a <> type_of b ->
      tuple_eqb (__cache_key__ cfg func args1 kw1)
                (__cache_key__ cfg func args2 kw2) = false) /\
  (typed cfg = true ->
   forall (args1 args2 : tuple) (kw1 kw2 : kwargs_t) (name : string) (a b : value),
      length args1 = length args2 ->
      NoDup (kw1.*1) ->
      kw1.*1 ≡ₚ kw2.*1 ->
      py_in (VStr name) (ignore cfg) = false ->
      (name, a) ∈ kw1 -> (name, b) ∈ kw2 ->
      type_of a <> type_of b ->
      tuple_eqb (__cache_key__ cfg func args1 kw1)
                (__cache_key__ cfg func args2 kw2) = false).
Proof.
  split; [|split].
  - intros cfg' func' args kw1 kw2 Hbase Htyped Hign Hnd Hp. unfold __cache_key__.
    rewrite <- Hbase, <- Htyped, <- Hign.
    rewrite !args_to_key_parts. cbv zeta.
    now rewrite (sorted_items_perm _ _ (keep_kwargs_NoDup _ _ Hnd) Hp).
  - intros Ht args1 args2 kw1 kw2 i a b Hlen Hi Ha Hb Hty.
    unfold __cache_key__. rewrite Ht.
    destruct (tuple_eqb _ _) eqn:Heq; trivial.
    exfalso. apply Hty.
    apply typed_keys_agree in Heq as [Heq _]; trivial.
    now apply (kept_types_agree (ignore cfg) args1 args2 Hlen 0 Heq i a b).
  - intros Ht args1 args2 kw1 kw2 name a b Hlen Hnd Hp Hname Ha Hb Hty.
    unfold __cache_key__. rewrite Ht.
    destruct (tuple_eqb _ _) eqn:Heq; trivial.
    exfalso. apply Hty.
    apply typed_keys_agree in Heq as [_ Heq]; trivial.
    pose proof (keep_kwargs_names_perm (ignore cfg) kw1 kw2 Hp) as Hkept.
    assert (Hkeep : forall (kw : kwargs_t) (v : value),
               (name, v) ∈ kw -> (name, v) ∈ sorted_items (keep_kwargs (ignore cfg) kw)).
    { intros kw v Hin. unfold sorted_items. rewrite merge_sort_Permutation.
      apply list_elem_of_In, filter_In. split; [now apply list_elem_of_In|].
      cbn [fst]. now rewrite Hname. }
    apply (item_types_agree (sorted_items (keep_kwargs (ignore cfg) kw1))
                            (sorted_items (keep_kwargs (ignore cfg) kw2)) name a b);
      auto.
    + now apply sorted_items_names.
    + unfold sorted_items. rewrite merge_sort_Permutation.
      now apply keep_kwargs_NoDup.
Qed.

End CacheKey.

(** With [typed=True] and [ignore={"verbose"}]: the order of the keywords
    and the value of [verbose] do not change the key, and [compute(3)] and
    [compute(3.0)], equal as numbers, get keys that differ, as do
    [compute(n=3)] and [compute(n=3.0)]. *)
Lemma cache_key_identity_witness :
  __cache_key__ Sample.typed_cfg Sample.compute []
      [("verbose", VBool true); ("n", VInt 2)] =
  __cache_key__ Sample.typed_cfg Sample.compute []
      [("n", VInt 2); ("verbose", VBool false)] /\
  Py.eqb Sample.three Sample.three_f = true /\
  tuple_eqb (__cache_key__ Sample.typed_cfg Sample.compute [Sample.three] [])
            (__cache_key__ Sample.typed_cfg Sample.compute [Sample.three_f] []) = false /\
  tuple_eqb (__cache_key__ Sample.typed_cfg Sample.compute [] [("n", Sample.three)])
            (__cache_key__ Sample.typed_cfg Sample.compute [] [("n", Sample.three_f)])
    = false.
Proof.
  destruct (cache_key_identity Sample.typed_cfg Sample.compute)
    as (Hsame & Htyped & Hkeyword).
  split; [|split; [|split]].
  - apply Hsame; try reflexivity.
    apply (bool_decide_unpack _). vm_compute. exact I.
  - vm_compute. reflexivity.
  - apply (Htyped eq_refl [Sample.three] [Sample.three_f] [] [] 0%nat
             Sample.three Sample.three_f); try reflexivity.
    simpl. discriminate.
  - apply (Hkeyword eq_refl [] [] [("n", Sample.three)] [("n", Sample.three_f)] "n"
             Sample.three Sample.three_f); try reflexivity.
    + apply (bool_decide_unpack _). vm_compute. exact I.
    + apply list_elem_of_singleton. reflexivity.
    + apply list_elem_of_singleton. reflexivity.
    + simpl. discriminate.
Defined.

(** Without [typed], [compute(3)] and [compute(3.0)] get keys that compare
    equal. *)
Example untyped_keys_collide :
  tuple_eqb (__cache_key__ Sample.untyped_cfg Sample.compute [Sample.three] [])
            (__cache_key__ Sample.untyped_cfg Sample.compute [Sample.three_f] []) = true.
Proof. vm_compute. reflexivity. Qed.

(** ** Ignored arguments *)

Lemma keep_kwargs_set_kwarg (ign : list value) (name : string) (v : value)
    (kwargs : kwargs_t) :
  py_in (VStr name) ign = true ->
  keep_kwargs ign (set_kwarg name v kwargs) = keep_kwargs ign kwargs.
Proof.
  intros Hin. induction kwargs as [|[k x] kwargs IH]; trivial.
  unfold keep_kwargs, set_kwarg in *. cbn [List.map List.filter fst].
  rewrite IH. destruct (String.eqb_spec k name) as [->|Hne]; cbn [fst].
  - now rewrite Hin.
  - reflexivity.
Qed.

Lemma keep_args_insert (ign : list value) (v : value) (args : tuple) :
  forall (n i : nat),
  py_in (VInt (Z.of_nat (n + i))) ign = true ->
  keep_args ign n (<[i := v]> args) = keep_args ign n args.
Proof.
  induction args as [|a args IH]; intros n i Hin; trivial.
  destruct i as [|i].
  - rewrite Nat.add_0_r in Hin.
    change (<[0%nat := v]> (a :: args)) with (v :: args).
    cbn [keep_args]. now rewrite Hin.
  - change (<[S i := v]> (a :: args)) with (a :: <[i := v]> args).
    cbn [keep_args].
    assert (E : keep_args ign (S n) (<[i := v]> args) = keep_args ign (S n) args).
    { apply IH. now replace (S n + i)%nat with (n + S i)%nat by lia. }
    destruct (py_in (VInt (Z.of_nat n)) ign); [exact E | f_equal; exact E].
Qed.

Section Ignore.

Context {U : Type}.
Implicit Types (cfg : config) (func : callable_t U).

(** C5, as the code has it. An argument passed by keyword whose name is in
    the ignore set does not affect the key, and neither does an argument
    passed by position whose index (counted after the instance) is in the
    ignore set: two calls that differ only in the value of such an argument
    derive the same key. *)
Theorem ignored_argument_same_key cfg func (args : tuple) (kwargs : kwargs_t)
    (v : value) :
  (forall name : string,
      py_in (VStr name) (ignore cfg) = true ->
      __cache_key__ cfg func args (set_kwarg name v kwargs) =
      __cache_key__ cfg func args kwargs) /\
  (forall i : nat,
      py_in (VInt (Z.of_nat i)) (ignore cfg) = true ->
      __cache_key__ cfg func (<[i := v]> args) kwargs =
      __cache_key__ cfg func args kwargs).
Proof.
  split.
  - intros name Hin. unfold __cache_key__.
    rewrite !args_to_key_parts. cbv zeta.
    now rewrite keep_kwargs_set_kwarg.
  - intros i Hin. unfold __cache_key__.
    rewrite !args_to_key_parts. cbv zeta.
    now rewrite (keep_args_insert (ignore cfg) v args 0 i Hin).
Qed.

End Ignore.

(** [compute(1, verbose=True)] and [compute(1, verbose=False)] under
    [ignore={"verbose"}], and [compute(1, True)] and [compute(1, False)]
    under [ignore={1}]. *)
Lemma ignored_argument_same_key_witness :
  __cache_key__ Sample.untyped_cfg Sample.compute [VInt 1] [("verbose", VBool false)] =
  __cache_key__ Sample.untyped_cfg Sample.compute [VInt 1] [("verbose", VBool true)] /\
  __cache_key__ Sample.index_cfg Sample.compute [VInt 1; VBool false] [] =
  __cache_key__ Sample.index_cfg Sample.compute [VInt 1; VBool true] [].
Proof.
  split.
  - apply (proj1 (ignored_argument_same_key Sample.untyped_cfg Sample.compute
                    [VInt 1] [("verbose", VBool true)] (VBool false)) "verbose").
    reflexivity.
  - apply (proj2 (ignored_argument_same_key Sample.index_cfg Sample.compute
                    [VInt 1; VBool true] [] (VBool false)) 1%nat).
    reflexivity.
Defined.

(** C5 as stated fails for an argument passed by position. Under
    [ignore={"verbose"}], [compute(1, True)] and [compute(1, False)] pass
    the same [n] and differ only in the value of [verbose], which is named
    in the ignore set; their keys differ. *)
Lemma ignored_name_by_position_changes_key :
  py_in (VStr "verbose") (ignore Sample.untyped_cfg) = true /\
  passed Sample.compute_fn [VInt 1; VBool true] [] "n" =
  passed Sample.compute_fn [VInt 1; VBool false] [] "n" /\
  passed Sample.compute_fn [VInt 1; VBool true] [] "verbose" = Some (VBool true) /\
  passed Sample.compute_fn [VInt 1; VBool false] [] "verbose" = Some (VBool false) /\
  __cache_key__ Sample.untyped_cfg Sample.compute [VInt 1; VBool true] [] <>
  __cache_key__ Sample.untyped_cfg Sample.compute [VInt 1; VBool false] [] /\
  tuple_eqb (__cache_key__ Sample.untyped_cfg Sample.compute [VInt 1; VBool true] [])
            (__cache_key__ Sample.untyped_cfg Sample.compute [VInt 1; VBool false] [])
    = false.
Proof.
  repeat split; try reflexivity.
  vm_compute. discriminate.
Qed.

(** ** Configuration *)

(** C7. [memoize] called with a callable as [name] raises [TypeError] and
    returns no decorator, whatever the other arguments: nothing is wrapped
    and nothing can be called. This is what the bare [@memoize] does, which
    passes the function as [name]. *)
Theorem memoize_callable_name_raises (name : value) (typed : bool)
    (expire : option Qc) (tag : option string) (ignore : list value) :
  callable name = true ->
  memoize name typed expire tag ignore = inl (TypeError "name cannot be callable").
Proof. intros H. unfold memoize. now rewrite H. Qed.

Lemma memoize_callable_name_raises_witness :
  callable (VFunc Sample.compute_fn) = true /\
  memoize_bare Sample.compute = inl (TypeError "name cannot be callable").
Proof.
  split; [reflexivity|].
  apply (memoize_callable_name_raises (VFunc Sample.compute_fn) false None None []).
  reflexivity.
Defined.

(** A name that is not callable configures the decorator. *)
Lemma memoize_plain_name (name : value) (typed : bool)
    (expire : option Qc) (tag : option string) (ignore : list value) :
  callable name = false ->
  memoize name typed expire tag ignore = inr (mkConfig name typed expire tag ignore).
Proof. intros H. unfold memoize. now rewrite H. Qed.

(** ** Resolving the cache of a node *)

(** Induction along the chain of parents. *)
Lemma BaseNode_chain_ind (P : BaseNode -> Prop) :
  (forall (n : string) (c : option Cache), P (mkNode n None c)) ->
  (forall (n : string) (p : BaseNode) (c : option Cache),
      P p -> P (mkNode n (Some p) c)) ->
  forall self : BaseNode, P self.
Proof.
  intros Hroot Hchild. fix IH 1. intros [n [p|] c].
  - apply Hchild, IH.
  - apply Hroot.
Qed.

Section Resolution.

Context {U : Type}.

(** C4. In a tree of three levels whose root owns the cache [A] and whose
    child [B] and grandchild [C] own none, the [cache] property of [B] and
    of [C] is the object [A] of the root. *)
Theorem three_level_tree_resolves_to_root (root_name b_name c_name : string) (A : Cache) :
  let root := mkNode root_name None (Some A) in
  let B := mkNode b_name (Some root) None in
  let C := mkNode c_name (Some B) None in
  cache root = inr A /\ cache B = inr A /\ cache C = inr A.
Proof. cbv zeta. repeat split. Qed.

(** The same tree as [Node] builds it: the root without a parent, [B] with
    [parent=root] and [C] with [parent=B]. Only the root makes a cache. *)
Lemma built_tree_shares_cache (w : world U) :
  let build : M U (BaseNode * BaseNode * BaseNode) :=
    let* root := Node___init__ "root" None None in
    let* B := Node___init__ "b" None (Some root) in
    let* C := Node___init__ "c" None (Some B) in
    ret (root, B, C) in
  exists (A : Cache) (root B C : BaseNode) (w' : world U),
    build w = (inr (root, B, C), w') /\
    _cache root = Some A /\ _cache B = None /\ _cache C = None /\
    cache B = inr A /\ cache C = inr A /\
    next_id w' = S (next_id w).
Proof.
  cbv zeta. eexists _, _, _, _, _. repeat split.
Qed.

(** A node on a chain without an owner has no cache to resolve to. *)
Lemma no_owner_cache (self : BaseNode) :
  no_owner self = true ->
  cache self = inl (AttributeError "'NoneType' object has no attribute 'cache'").
Proof.
  induction self as [n [c|]|n p [c|] IH] using BaseNode_chain_ind;
    simpl; try discriminate; trivial.
Qed.

(** C6. Reading [cache] on a node that owns no cache and has no ancestor
    that owns one raises [AttributeError]. Nothing fails before that:
    constructing a [Node] under such a node succeeds, without touching the
    world, and so does constructing a parentless [BaseNode]; the nodes made
    are again without an owner, and the error comes when their [cache] is
    read. *)
Theorem unowned_cache_raises_on_access (self : BaseNode) (name : string) (w : world U) :
  no_owner self = true ->
  name <> "" ->
  is_AttributeError (cache self) = true /\
  (exists child : BaseNode,
      Node___init__ name None (Some self) w = (inr child, w) /\
      parent child = Some self /\
      is_AttributeError (cache child) = true) /\
  (exists orphan : BaseNode,
      BaseNode___init__ name None w = (inr orphan, w) /\
      parent orphan = None /\
      is_AttributeError (cache orphan) = true).
Proof.
  intros Hno Hname. split; [|split].
  - now rewrite (no_owner_cache self Hno).
  - exists (mkNode name (Some self) None).
    unfold Node___init__. destruct (decide (name = "")) as [E|_]; [contradiction|].
    repeat split. simpl. now rewrite (no_owner_cache self Hno).
  - exists (mkNode name None None).
    unfold BaseNode___init__. destruct (decide (name = "")) as [E|_]; [contradiction|].
    repeat split.
Qed.

(** C8. A root [Node] named ["foo"] made without a cache location owns a
    cache from its construction on: a new [Cache] object on the directory
    ["/tmp/yazr_foo.cache"], which exists once the constructor returns and
    has ["foo"] in its path. *)
Theorem root_default_cache_location (w : world U) :
  let A := mkCache (next_id w) "/tmp/yazr_foo.cache" in
  exists w' : world U,
    Node___init__ "foo" None None w = (inr (mkNode "foo" None (Some A)), w') /\
    cache (mkNode "foo" None (Some A)) = inr A /\
    is_Some (disk w' !! directory A) /\
    String.index 0 "foo" (directory A) = Some 10%nat /\
    String.substring 10 3 (directory A) = "foo".
Proof.
  cbv zeta.
  set (A := mkCache (next_id w) "/tmp/yazr_foo.cache").
  exists (mkWorld (<[directory A := rows w A]> (disk w)) (clock w) (conflicts w)
                  (S (next_id w)) (log w) (user w)).
  split; [reflexivity|].
  repeat split. cbn [disk]. rewrite lookup_insert_eq. eauto.
Qed.

(** The default location of any root: the name between ["/tmp/yazr_"] and
    [".cache"]; a location that is given is used as it is. *)
Lemma root_cache_location (name : string) (cache_dir_path : option string)
    (w : world U) :
  name <> "" ->
  exists (A : Cache) (w' : world U),
    Node___init__ name cache_dir_path None w = (inr (mkNode name None (Some A)), w') /\
    id A = next_id w /\
    directory A =
      match cache_dir_path with
      | None => String.append "/tmp/yazr_" (String.append name ".cache")
      | Some path => path
      end.
Proof.
  intros Hname. unfold Node___init__.
  destruct (decide (name = "")) as [E|_]; [contradiction|].
  eexists _, _. repeat split.
Qed.

End Resolution.

Lemma unowned_cache_raises_on_access_witness :
  no_owner (mkNode "r" None None) = true /\
  is_AttributeError (cache (mkNode "r" None None)) = true.
Proof.
  split; [reflexivity|].
  apply (unowned_cache_raises_on_access (U := unit) (mkNode "r" None None) "c"
           (mkWorld ∅ (Q2Qc 0) [] 0 [] tt)).
  - reflexivity.
  - discriminate.
Defined.

(** ** The memoizing wrapper *)

Section Wrapper.

Context {U : Type}.
Implicit Types (cfg : config) (func : callable_t U) (w : world U).

Lemma transact_retry (n : nat) : transact true n = inr tt.
Proof. induction n; trivial. Qed.

Lemma Cache_get_retry (c : Cache) (key : tuple) w :
  Cache_get c key true w =
  (inr (select (rows w c) key (clock w)), after_op (EvGet c key true) w).
Proof.
  unfold Cache_get, bind, record, next_conflicts, lift, after_op, rows.
  cbn [conflicts disk clock next_id log user].
  destruct (conflicts w) as [|n rest]; cbn [transact tail].
  - reflexivity.
  - now rewrite transact_retry.
Qed.

Lemma Cache_set_retry (c : Cache) (key : tuple) (v : value) (expire : option Qc)
    (tag : option string) w :
  Cache_set c key v expire tag true w = (inr true, after_set c key v expire tag w).
Proof.
  unfold Cache_set, bind, record, next_conflicts, lift, after_set, write_rows, rows.
  cbn [conflicts disk clock next_id log user].
  destruct (conflicts w) as [|n rest]; cbn [transact tail].
  - reflexivity.
  - now rewrite transact_retry.
Qed.

Lemma call_run func (instance : BaseNode) (args : tuple) (kwargs : kwargs_t) w :
  call func instance args kwargs w =
  ((body func instance args kwargs (user w)).1,
   after_call (EvCall (fn func) instance args kwargs)
     (body func instance args kwargs (user w)).2 w).
Proof.
  unfold call, bind, record, after_call. cbn [conflicts disk clock next_id log user].
  now destruct (body func instance args kwargs (user w)).
Qed.

(** What a call of the wrapper does, case by case. *)
Lemma wrapper_run cfg func (instance : BaseNode) (args : tuple) (kwargs : kwargs_t) w :
  wrapper cfg func instance args kwargs w =
  let key := __cache_key__ cfg func args kwargs in
  match cache instance with
  | inl e => (inl e, w)
  | inr c =>
      let w1 := after_op (EvGet c key true) w in
      match select (rows w c) key (clock w) with
      | Some v => (inr v, w1)
      | None =>
          let out := body func instance args kwargs (user w) in
          let w2 := after_call (EvCall (fn func) instance args kwargs) out.2 w1 in
          match out.1 with
          | inl e => (inl e, w2)
          | inr v =>
              if stores (expire cfg)
              then (inr v, after_set c key v (expire cfg) (tag cfg) w2)
              else (inr v, w2)
          end
      end
  end.
Proof.
  cbv zeta. unfold wrapper.
  destruct (cache instance) as [e|c]; [reflexivity|].
  unfold bind at 1. cbn [lift ret].
  unfold bind at 1. rewrite Cache_get_retry.
  destruct (select (rows w c) _ (clock w)) as [v|]; [reflexivity|].
  unfold bind at 1. rewrite call_run. cbn [user after_op].
  destruct (body func instance args kwargs (user w)) as [[e|v] u]; cbn [fst snd];
    [reflexivity|].
  destruct (stores (expire cfg)); [|reflexivity].
  unfold bind at 1. cbn [lift ret].
  unfold bind at 1. now rewrite Cache_set_retry.
Qed.

End Wrapper.

(** ** Rows *)

Section Rows.

Context {U : Type}.
Implicit Types (w : world U).

Lemma find_upsert (key : tuple) (e : entry) (st : store) :
  find key (upsert key e st) = Some e.
Proof. unfold upsert. cbn [find]. now destruct (decide (key = key)). Qed.

Lemma rows_after_op (e : event) w (c : Cache) : rows (after_op e w) c = rows w c.
Proof. reflexivity. Qed.

Lemma rows_after_call (e : event) (u : U) w (c : Cache) :
  rows (after_call e u w) c = rows w c.
Proof. reflexivity. Qed.

Lemma rows_tick (d : Qc) w (c : Cache) : rows (tick d w) c = rows w c.
Proof. reflexivity. Qed.

Lemma rows_after_set (c : Cache) (key : tuple) (v : value) (expire : option Qc)
    (tag : option string) w :
  rows (after_set c key v expire tag w) c =
  upsert key (mkEntry v (option_map (fun e => (clock w + e)%Qc) expire) tag) (rows w c).
Proof. unfold rows, after_set. cbn [disk]. now rewrite lookup_insert_eq. Qed.

(** A row that is not served now is not served later. *)
Lemma select_miss_later (st : store) (key : tuple) (now d : Qc) :
  (0 <= d)%Qc -> select st key now = None -> select st key (now + d)%Qc = None.
Proof.
  unfold select, live. intros Hd.
  destruct (find key st) as [e|]; trivial.
  destruct (e_expire_time e) as [t|]; [|discriminate].
  destruct (bool_decide (now < t)%Qc) eqn:E; [discriminate|]. intros _.
  apply bool_decide_eq_false in E.
  rewrite bool_decide_eq_false_2; trivial.
  intros Hlt. apply E.
  apply Qcle_lt_trans with (now + d)%Qc; trivial.
  rewrite <- (Qcplus_0_r now) at 1.
  now apply Qcplus_le_mono_l.
Qed.

End Rows.

(** ** Memoization *)

(** Goes through the events of a given list: a store operation shows its
    flag, a call is excluded by [Hcall]. *)
Ltac retry_flags Hin Hcall :=
  repeat (apply elem_of_cons in Hin as [->|Hin];
          [first [reflexivity | discriminate Hcall]|]);
  inversion Hin.

Section Memoization.

Context {U : Type}.
Implicit Types (cfg : config) (func : callable_t U) (w : world U).
Implicit Types (instance : BaseNode) (args : tuple) (kwargs : kwargs_t).

Lemma cache_error instance (e : exn) :
  cache instance = inl e -> e <> Timeout.
Proof.
  induction instance as [n [c|]|n p [c|] IH] using BaseNode_chain_ind;
    simpl; try discriminate; trivial.
  intros [= <-]. discriminate.
Qed.

(** C2. With [expire=None], or with a positive [expire] that the time [d]
    between the two calls stays below, two calls of a memoized method on
    the same node with the same arguments, from a cache without an entry
    for the key, call the wrapped function once: the first call runs it and
    returns its result [v], the second returns [v] from the cache. *)
Theorem memoized_twice_calls_once cfg func instance args kwargs
    (c : Cache) (v : value) (u : U) (d : Qc) w :
  cache instance = inr c ->
  find (__cache_key__ cfg func args kwargs) (rows w c) = None ->
  body func instance args kwargs (user w) = (inr v, u) ->
  match expire cfg with
  | None => True
  | Some e => (0 < e)%Qc /\ (d < e)%Qc
  end ->
  exists w1 w2 : world U,
    wrapper cfg func instance args kwargs w = (inr v, w1) /\
    wrapper cfg func instance args kwargs (tick d w1) = (inr v, w2) /\
    count is_call (log w2) = S (count is_call (log w)) /\
    user w2 = u.
Proof.
  intros Hc Hfind Hbody Hexp.
  assert (Hstores : stores (expire cfg) = true).
  { unfold stores. destruct (expire cfg) as [e|]; trivial.
    now apply bool_decide_eq_true_2. }
  set (key := __cache_key__ cfg func args kwargs) in *.
  set (w1 := after_set c key v (expire cfg) (tag cfg)
               (after_call (EvCall (fn func) instance args kwargs) u
                  (after_op (EvGet c key true) w))).
  exists w1, (after_op (EvGet c key true) (tick d w1)).
  split; [|split].
  - rewrite wrapper_run. cbv zeta. rewrite Hc.
    unfold select. fold key. rewrite Hfind, Hbody. cbn [fst snd]. rewrite Hstores.
    reflexivity.
  - rewrite wrapper_run. cbv zeta. rewrite Hc. fold key. subst w1.
    rewrite rows_tick, rows_after_set.
    unfold select. rewrite find_upsert.
    unfold live. cbn [e_expire_time e_value].
    destruct (expire cfg) as [e|]; cbn [option_map]; [|reflexivity].
    rewrite bool_decide_eq_true_2; [reflexivity|].
    cbn [tick clock after_set after_call after_op].
    apply Qcplus_lt_mono_l. tauto.
  - split; reflexivity.
Qed.

(** What a call does when the configuration does not store. *)
Lemma wrapper_not_storing cfg func instance args kwargs (c : Cache) w :
  stores (expire cfg) = false ->
  cache instance = inr c ->
  select (rows w c) (__cache_key__ cfg func args kwargs) (clock w) = None ->
  wrapper cfg func instance args kwargs w =
  ((body func instance args kwargs (user w)).1,
   after_call (EvCall (fn func) instance args kwargs)
     (body func instance args kwargs (user w)).2
     (after_op (EvGet c (__cache_key__ cfg func args kwargs) true) w)).
Proof.
  intros Hst Hc Hsel. rewrite wrapper_run. cbv zeta. rewrite Hc, Hsel, Hst.
  now destruct (body func instance args kwargs (user w)) as [[e|v] u].
Qed.

(** C3, as the code has it. With an [expire] that is zero or negative and
    a cache that holds no live entry for the key, every call, however much
    later, looks the key up and misses, calls the wrapped function and
    writes nothing: after any number of calls the cache directories are as
    they were, and there is one lookup and one call of the function per
    call and no write. *)
Theorem no_write_through_calls_every_time cfg func instance args kwargs
    (c : Cache) (e : Qc) (delays : list Qc) w :
  expire cfg = Some e ->
  (e <= 0)%Qc ->
  cache instance = inr c ->
  select (rows w c) (__cache_key__ cfg func args kwargs) (clock w) = None ->
  Forall (fun d => (0 <= d)%Qc) delays ->
  let w' := run_calls cfg func instance args kwargs delays w in
  disk w' = disk w /\
  select (rows w' c) (__cache_key__ cfg func args kwargs) (clock w') = None /\
  count is_get (log w') = (length delays + count is_get (log w))%nat /\
  count is_call (log w') = (length delays + count is_call (log w))%nat /\
  count is_set (log w') = count is_set (log w).
Proof.
  intros He Hle Hc Hsel Hds. cbv zeta.
  assert (Hst : stores (expire cfg) = false).
  { rewrite He. unfold stores. apply bool_decide_eq_false_2.
    now apply Qcle_not_lt. }
  revert w Hsel. induction Hds as [|d delays Hd Hds IH]; intros w Hsel.
  - repeat split; trivial.
  - cbn [run_calls length].
    assert (Hsel' : select (rows (tick d w) c) (__cache_key__ cfg func args kwargs)
                      (clock (tick d w)) = None).
    { rewrite rows_tick. cbn [tick clock]. now apply select_miss_later. }
    rewrite (wrapper_not_storing cfg func instance args kwargs c (tick d w) Hst Hc Hsel').
    cbn [snd].
    match goal with |- context [run_calls _ _ _ _ _ _ ?x] => set (w1 := x) end.
    destruct (IH w1) as (Hdisk & Hmiss & Hget & Hcall & Hset).
    { exact Hsel'. }
    rewrite Hdisk, Hget, Hcall, Hset.
    split; [reflexivity|]. split; [exact Hmiss|].
    subst w1. unfold count.
    cbn [log after_call after_op tick List.filter is_get is_call is_set length].
    repeat split; lia.
Qed.

(** Whatever the cache holds, a configuration that does not store leaves
    the cache directories as they are. *)
Lemma not_storing_never_writes cfg func instance args kwargs w :
  stores (expire cfg) = false ->
  disk (wrapper cfg func instance args kwargs w).2 = disk w.
Proof.
  intros Hst. rewrite wrapper_run. cbv zeta. rewrite Hst.
  destruct (cache instance) as [e|c]; trivial.
  destruct (select _ _ _); trivial.
  now destruct (body func instance args kwargs (user w)) as [[e|v] u].
Qed.

(** C9. Every lookup and every write the wrapper makes asks the store to
    retry: each store operation a call adds to the log carries
    [retry=True]. So no number of lock conflicts makes the call fail: it
    raises [Timeout] only if the wrapped function raised it. *)
Theorem wrapper_requests_retry cfg func instance args kwargs w :
  exists new : list event,
    log (wrapper cfg func instance args kwargs w).2 = new ++ log w /\
    (forall ev : event, ev ∈ new -> is_call ev = false -> retry_of ev = Some true) /\
    ((wrapper cfg func instance args kwargs w).1 = inl Timeout ->
     (body func instance args kwargs (user w)).1 = inl Timeout).
Proof.
  rewrite wrapper_run. cbv zeta.
  destruct (cache instance) as [e|c] eqn:Hc.
  - exists []. split; [reflexivity|]. split.
    + intros ev Hin. inversion Hin.
    + cbn [fst]. intros [= ->]. now apply cache_error in Hc.
  - destruct (select _ _ _) as [v|].
    + eexists [_]. split; [reflexivity|]. split; [|discriminate].
      intros ev Hin Hcall. retry_flags Hin Hcall.
    + destruct (body func instance args kwargs (user w)) as [[e|v] u]; cbn [fst snd].
      * eexists [_; _]. split; [reflexivity|]. split; [|trivial].
        intros ev Hin Hcall. retry_flags Hin Hcall.
      * destruct (stores (expire cfg)).
        -- eexists [_; _; _]. split; [reflexivity|]. split; [|discriminate].
           intros ev Hin Hcall. retry_flags Hin Hcall.
        -- eexists [_; _]. split; [reflexivity|]. split; [|discriminate].
           intros ev Hin Hcall. retry_flags Hin Hcall.
Qed.

(** C10. When the lookup misses and the wrapped function raises, the call
    raises the same exception and writes nothing: the cache directories are
    as they were before the call. *)
Theorem failed_call_leaves_cache cfg func instance args kwargs
    (c : Cache) (e : exn) (u : U) w :
  cache instance = inr c ->
  select (rows w c) (__cache_key__ cfg func args kwargs) (clock w) = None ->
  body func instance args kwargs (user w) = (inl e, u) ->
  exists w' : world U,
    wrapper cfg func instance args kwargs w = (inl e, w') /\
    disk w' = disk w /\
    count is_set (log w') = count is_set (log w).
Proof.
  intros Hc Hsel Hbody. eexists. split.
  - rewrite wrapper_run. cbv zeta. rewrite Hc, Hsel, Hbody. reflexivity.
  - split; reflexivity.
Qed.

End Memoization.

(** ** The wrapper on a sample tree *)

(** [Node("foo")] on a fresh machine is the node [Sample.foo]. *)
Example foo_constructed :
  (Node___init__ "foo" None None Sample.w0).1 = inr Sample.foo.
Proof. reflexivity. Qed.

(** [compute(5)] twice, five seconds apart, under [expire=10]. *)
Lemma memoized_twice_calls_once_witness :
  exists w1 w2 : world nat,
    wrapper Sample.expire10_cfg Sample.compute Sample.foo [VInt 5] [] Sample.w_foo
      = (inr (VInt 5), w1) /\
    wrapper Sample.expire10_cfg Sample.compute Sample.foo [VInt 5] [] (tick (Q2Qc 5) w1)
      = (inr (VInt 5), w2) /\
    count is_call (log w2) = S (count is_call (log Sample.w_foo)) /\
    user w2 = 1%nat.
Proof.
  apply (memoized_twice_calls_once Sample.expire10_cfg Sample.compute Sample.foo
           [VInt 5] [] Sample.foo_cache (VInt 5) 1%nat (Q2Qc 5) Sample.w_foo).
  - reflexivity.
  - vm_compute. reflexivity.
  - reflexivity.
  - split; reflexivity.
Defined.

(** [compute(5)] three times under [expire=0], one and two seconds apart. *)
Lemma no_write_through_calls_every_time_witness :
  let w' := run_calls Sample.expire0_cfg Sample.compute Sample.foo [VInt 5] []
              [Q2Qc 0; Q2Qc 1; Q2Qc 2] Sample.w_foo in
  disk w' = disk Sample.w_foo /\
  count is_get (log w') = 3%nat /\
  count is_call (log w') = 3%nat /\
  count is_set (log w') = 0%nat.
Proof.
  destruct (no_write_through_calls_every_time Sample.expire0_cfg Sample.compute
              Sample.foo [VInt 5] [] Sample.foo_cache (Q2Qc 0)
              [Q2Qc 0; Q2Qc 1; Q2Qc 2] Sample.w_foo)
    as (Hdisk & _ & Hget & Hcall & Hset).
  - reflexivity.
  - discriminate.
  - reflexivity.
  - vm_compute. reflexivity.
  - repeat constructor; discriminate.
  - cbv zeta. repeat split; assumption.
Defined.

(** C3 as stated fails on a cache that holds the key. After [compute(5)]
    ran once under [expire=None], the same call under [expire=0], with the
    same key on the same cache, finds the entry: its lookup does not miss
    and it does not call the wrapped function. *)
Lemma expire_zero_hit_skips_function :
  __cache_key__ Sample.expire0_cfg Sample.compute [VInt 5] [] =
  __cache_key__ Sample.noexpire_cfg Sample.compute [VInt 5] [] /\
  let w1 := (wrapper Sample.noexpire_cfg Sample.compute Sample.foo [VInt 5] []
               Sample.w_foo).2 in
  let out := wrapper Sample.expire0_cfg Sample.compute Sample.foo [VInt 5] [] w1 in
  select (rows w1 Sample.foo_cache)
         (__cache_key__ Sample.expire0_cfg Sample.compute [VInt 5] []) (clock w1)
    = Some (VInt 5) /\
  out.1 = inr (VInt 5) /\
  count is_get (log out.2) = S (count is_get (log w1)) /\
  count is_call (log out.2) = count is_call (log w1) /\
  user out.2 = user w1.
Proof. vm_compute. repeat split. Qed.

(** [compute(5)] while the store is contended. *)
Lemma wrapper_requests_retry_witness :
  (wrapper Sample.noexpire_cfg Sample.compute Sample.foo [VInt 5] [] Sample.w_busy).1
    = inr (VInt 5) /\
  exists new : list event,
    log (wrapper Sample.noexpire_cfg Sample.compute Sample.foo [VInt 5] []
           Sample.w_busy).2 = new ++ log Sample.w_busy /\
    (forall ev : event, ev ∈ new -> is_call ev = false -> retry_of ev = Some true) /\
    ((wrapper Sample.noexpire_cfg Sample.compute Sample.foo [VInt 5] []
        Sample.w_busy).1 = inl Timeout ->
     (body Sample.compute Sample.foo [VInt 5] [] (user Sample.w_busy)).1 = inl Timeout).
Proof.
  split; [reflexivity|].
  exact (wrapper_requests_retry Sample.noexpire_cfg Sample.compute Sample.foo
           [VInt 5] [] Sample.w_busy).
Defined.

(** Without the retry mode the first conflict would be a failure. *)
Example get_without_retry_times_out :
  (Cache_get Sample.foo_cache [VStr "k"] false Sample.w_busy).1 = inl Timeout /\
  (Cache_get Sample.foo_cache [VStr "k"] true Sample.w_busy).1 = inr None.
Proof. split; reflexivity. Qed.

(** [broken(5)] raises; nothing is written. *)
Lemma failed_call_leaves_cache_witness :
  exists w' : world nat,
    wrapper Sample.noexpire_cfg Sample.broken Sample.foo [VInt 5] [] Sample.w_foo
      = (inl (Raised "ValueError"), w') /\
    disk w' = disk Sample.w_foo /\
    count is_set (log w') = count is_set (log Sample.w_foo).
Proof.
  apply (failed_call_leaves_cache Sample.noexpire_cfg Sample.broken Sample.foo
           [VInt 5] [] Sample.foo_cache (Raised "ValueError") 1%nat Sample.w_foo).
  - reflexivity.
  - vm_compute. reflexivity.
  - reflexivity.
Defined.

(** * Further properties *)

(** ** Keys: base, injectivity, collisions *)

Lemma py_in_nil (x : value) : py_in x [] = false.
Proof. reflexivity. Qed.

Lemma keep_args_no_ignore (args : tuple) (n : nat) : keep_args [] n args = args.
Proof.
  revert n. induction args as [|a args IH]; intros n; trivial.
  cbn [keep_args]. rewrite py_in_nil. now rewrite IH.
Qed.

Lemma keep_kwargs_no_ignore (kwargs : kwargs_t) : keep_kwargs [] kwargs = kwargs.
Proof.
  induction kwargs as [|x kwargs IH]; trivial.
  unfold keep_kwargs in *. cbn [List.filter]. rewrite py_in_nil. cbn [negb].
  now rewrite IH.
Qed.

Section KeyBase.

Context {U : Type}.
Implicit Types (cfg : config) (func : callable_t U).

(** X1. The base of the key decides which functions share entries. Under an
    explicit name the key does not depend on the wrapped function: two
    functions decorated under the same configuration derive the same key
    for the same call. Under [name=None] two functions whose full names
    differ never derive the same key, whatever the calls. *)
Theorem base_separates_functions cfg (f1 f2 : callable_t U) :
  (cfg_name cfg <> VNone ->
   forall (args : tuple) (kwargs : kwargs_t),
     __cache_key__ cfg f1 args kwargs = __cache_key__ cfg f2 args kwargs) /\
  (cfg_name cfg = VNone ->
   full_name (fn f1) <> full_name (fn f2) ->
   forall (args1 args2 : tuple) (kw1 kw2 : kwargs_t),
     __cache_key__ cfg f1 args1 kw1 <> __cache_key__ cfg f2 args2 kw2).
Proof.
  split.
  - intros Hname args kwargs. unfold __cache_key__, base.
    now destruct (cfg_name cfg).
  - intros Hname Hne args1 args2 kw1 kw2. unfold __cache_key__, base.
    rewrite Hname, !args_to_key_parts. cbv zeta. cbn [app].
    intros [= H _]. now apply Hne.
Qed.

(** X2. With nothing ignored, the key of a call without keyword arguments
    determines its positional arguments: two such calls with the same key
    passed the same arguments, typed or not. *)
Theorem positional_key_injective cfg func (args1 args2 : tuple) :
  ignore cfg = [] ->
  __cache_key__ cfg func args1 [] = __cache_key__ cfg func args2 [] ->
  args1 = args2.
Proof.
  intros Hign. unfold __cache_key__. rewrite Hign, !args_to_key_parts. cbv zeta.
  rewrite !keep_args_no_ignore.
  change (sorted_items (keep_kwargs [] [])) with (@nil (string * value)).
  cbn [flatten_items flat_map types_of_items List.map].
  intros H. apply app_inv_head in H.
  assert (Hl : length args1 = length args2).
  { pose proof (f_equal length H) as Hl.
    destruct (typed cfg);
      repeat (rewrite ?length_app, ?types_of_args_length in Hl; cbn [length] in Hl);
      lia. }
  now apply app_inj_1 in H as [H _].
Qed.

(** X3. Without [typed] the key does not tell a positional call from a
    keyword call: with nothing ignored, the call that ends in the
    positional arguments [None, s] and the call that passes [s=None] by
    keyword instead derive the same key. *)
Theorem untyped_positional_keyword_collision cfg func (args : tuple) (s : string) :
  typed cfg = false ->
  ignore cfg = [] ->
  __cache_key__ cfg func (args ++ [VNone; VStr s]) [] =
  __cache_key__ cfg func args [(s, VNone)].
Proof.
  intros Ht Hign. unfold __cache_key__. rewrite Ht, Hign, !args_to_key_parts.
  cbv zeta. rewrite !keep_args_no_ignore, !keep_kwargs_no_ignore.
  change (sorted_items []) with (@nil (string * value)).
  change (sorted_items [(s, VNone)]) with [(s, VNone)].
  cbn [flatten_items flat_map fst snd app].
  rewrite ?app_nil_r, <- ?app_assoc. reflexivity.
Qed.

(** X4. An ignored keyword argument leaves no trace in the key: the call
    that passes it and the call that leaves it out derive the same key. *)
Theorem ignored_keyword_presence cfg func (args : tuple) (kwargs : kwargs_t)
    (name : string) (v : value) :
  py_in (VStr name) (ignore cfg) = true ->
  __cache_key__ cfg func args ((name, v) :: kwargs) =
  __cache_key__ cfg func args kwargs.
Proof.
  intros Hin. unfold __cache_key__. rewrite !args_to_key_parts. cbv zeta.
  unfold keep_kwargs. cbn [List.filter fst]. now rewrite Hin.
Qed.

End KeyBase.

Lemma base_separates_functions_witness :
  __cache_key__ Fixture.shared_cfg Sample.compute [VInt 1] [] =
  __cache_key__ Fixture.shared_cfg Fixture.whoami [VInt 1] [] /\
  __cache_key__ Sample.noexpire_cfg Sample.compute [VInt 1] [] <>
  __cache_key__ Sample.noexpire_cfg Fixture.whoami [VInt 1] [].
Proof.
  destruct (base_separates_functions Fixture.shared_cfg Sample.compute Fixture.whoami)
    as [Hshared _].
  destruct (base_separates_functions Sample.noexpire_cfg Sample.compute Fixture.whoami)
    as [_ Hauto].
  split.
  - apply Hshared. discriminate.
  - apply Hauto; [reflexivity|]. vm_compute. discriminate.
Defined.

Lemma positional_key_injective_witness :
  [VInt 1; VBool true] = [VInt 1; VBool true].
Proof.
  apply (positional_key_injective Sample.noexpire_cfg Sample.compute
           [VInt 1; VBool true] [VInt 1; VBool true]); reflexivity.
Defined.

(** [compute(None, "verbose")] and [compute(verbose=None)]. *)
Lemma untyped_positional_keyword_collision_witness :
  __cache_key__ Sample.noexpire_cfg Sample.compute [VNone; VStr "verbose"] [] =
  __cache_key__ Sample.noexpire_cfg Sample.compute [] [("verbose", VNone)].
Proof.
  apply (untyped_positional_keyword_collision Sample.noexpire_cfg Sample.compute
           [] "verbose"); reflexivity.
Defined.

Lemma ignored_keyword_presence_witness :
  __cache_key__ Sample.untyped_cfg Sample.compute [VInt 1] [("verbose", VBool true)] =
  __cache_key__ Sample.untyped_cfg Sample.compute [VInt 1] [].
Proof.
  apply (ignored_keyword_presence Sample.untyped_cfg Sample.compute [VInt 1] []
           "verbose" (VBool true)).
  reflexivity.
Defined.

(** ** The wrapper: hits, failures, expiry, sharing *)

Lemma find_remove_ne (key key' : tuple) (st : store) :
  key' <> key -> find key' (remove key st) = find key' st.
Proof.
  intros Hne. induction st as [|[k e] st IH]; trivial.
  unfold remove in *. cbn [List.filter fst].
  destruct (bool_decide_reflect (k = key)) as [->|Hk]; cbn [negb find].
  - rewrite IH. destruct (decide (key = key')) as [E|_]; [now subst|reflexivity].
  - now rewrite IH.
Qed.

Lemma find_upsert_ne (key key' : tuple) (e : entry) (st : store) :
  key' <> key -> find key' (upsert key e st) = find key' st.
Proof.
  intros Hne. unfold upsert. cbn [find].
  destruct (decide (key = key')) as [E|_]; [now subst|].
  now apply find_remove_ne.
Qed.

Lemma rows_same_directory {U : Type} (w : world U) (c1 c2 : Cache) :
  directory c1 = directory c2 -> rows w c1 = rows w c2.
Proof. unfold rows. now intros ->. Qed.

Lemma stores_positive (expire : option Qc) :
  match expire with
  | None => True
  | Some e => (0 < e)%Qc
  end -> stores expire = true.
Proof.
  destruct expire as [e|]; trivial. intros H. now apply bool_decide_eq_true_2.
Qed.

Section WrapperMore.

Context {U : Type}.
Implicit Types (cfg : config) (func : callable_t U) (w : world U).
Implicit Types (instance : BaseNode) (args : tuple) (kwargs : kwargs_t).

(** X5. On a hit the wrapper returns the stored value as it is: the
    wrapped function is not called, nothing is written and the state of the
    functions is untouched, under every configuration. *)
Theorem hit_returns_stored_value cfg func instance args kwargs (c : Cache)
    (v : value) w :
  cache instance = inr c ->
  select (rows w c) (__cache_key__ cfg func args kwargs) (clock w) = Some v ->
  exists w' : world U,
    wrapper cfg func instance args kwargs w = (inr v, w') /\
    disk w' = disk w /\
    user w' = user w /\
    count is_call (log w') = count is_call (log w) /\
    count is_set (log w') = count is_set (log w) /\
    count is_get (log w') = S (count is_get (log w)).
Proof.
  intros Hc Hsel. eexists. split.
  - rewrite wrapper_run. cbv zeta. rewrite Hc, Hsel. reflexivity.
  - repeat split.
Qed.

(** X6. On a node without a cache anywhere above it, the memoized method
    raises the [AttributeError] of the resolution before anything else
    happens: no lookup, no call of the wrapped function, the world as it
    was. *)
Theorem unresolved_cache_raises_before_lookup cfg func instance args kwargs w :
  no_owner instance = true ->
  wrapper cfg func instance args kwargs w =
  (inl (AttributeError "'NoneType' object has no attribute 'cache'"), w).
Proof.
  intros Hno. rewrite wrapper_run. cbv zeta.
  now rewrite (no_owner_cache instance Hno).
Qed.

(** X7. After a miss that stores, the row of the key derived by
    [__cache_key__] holds the result with the configured tag and the
    expiry time [expire] seconds after the call, and a lookup of that key
    in the cache of the node returns the result. *)
Theorem stored_result_readable_by_key cfg func instance args kwargs (c : Cache)
    (v : value) (u : U) w :
  cache instance = inr c ->
  select (rows w c) (__cache_key__ cfg func args kwargs) (clock w) = None ->
  body func instance args kwargs (user w) = (inr v, u) ->
  match expire cfg with
  | None => True
  | Some e => (0 < e)%Qc
  end ->
  let key := __cache_key__ cfg func args kwargs in
  let w' := (wrapper cfg func instance args kwargs w).2 in
  find key (rows w' c) =
    Some (mkEntry v (option_map (fun e => (clock w + e)%Qc) (expire cfg)) (tag cfg)) /\
  select (rows w' c) key (clock w') = Some v.
Proof.
  intros Hc Hsel Hbody Hexp. cbv zeta.
  rewrite wrapper_run. cbv zeta.
  rewrite Hc, Hsel, Hbody. cbn [fst snd].
  rewrite (stores_positive _ Hexp). cbn [snd].
  rewrite rows_after_set. unfold select. rewrite find_upsert.
  split; [reflexivity|].
  unfold live. cbn [e_expire_time e_value clock after_set after_call after_op].
  destruct (expire cfg) as [e|]; cbn [option_map]; [|reflexivity].
  rewrite bool_decide_eq_true_2; [reflexivity|].
  rewrite <- (Qcplus_0_r (clock w)) at 1.
  now apply Qcplus_lt_mono_l.
Qed.

(** X8. An entry is served only before its expiry: when the second of two
    equal calls comes [expire] seconds or more after the first, it misses,
    the wrapped function runs a second time and its new outcome is what the
    call gives. *)
Theorem expired_entry_recomputes cfg func instance args kwargs (c : Cache)
    (v : value) (u : U) (e d : Qc) w :
  expire cfg = Some e ->
  (0 < e)%Qc ->
  (e <= d)%Qc ->
  cache instance = inr c ->
  select (rows w c) (__cache_key__ cfg func args kwargs) (clock w) = None ->
  body func instance args kwargs (user w) = (inr v, u) ->
  exists w1 : world U,
    wrapper cfg func instance args kwargs w = (inr v, w1) /\
    (wrapper cfg func instance args kwargs (tick d w1)).1 =
      (body func instance args kwargs u).1 /\
    count is_call (log (wrapper cfg func instance args kwargs (tick d w1)).2) =
      S (S (count is_call (log w))).
Proof.
  intros He Hpos Hle Hc Hsel Hbody.
  assert (Hst : stores (expire cfg) = true).
  { rewrite He. now apply bool_decide_eq_true_2. }
  set (key := __cache_key__ cfg func args kwargs) in *.
  set (w1 := after_set c key v (expire cfg) (tag cfg)
               (after_call (EvCall (fn func) instance args kwargs) u
                  (after_op (EvGet c key true) w))).
  exists w1. split.
  - rewrite wrapper_run. cbv zeta. fold key.
    rewrite Hc, Hsel, Hbody. cbn [fst snd]. now rewrite Hst.
  - rewrite wrapper_run. cbv zeta. fold key. rewrite Hc.
    assert (Hmiss : select (rows (tick d w1) c) key (clock (tick d w1)) = None).
    { subst w1. rewrite rows_tick, rows_after_set.
      unfold select. rewrite find_upsert. unfold live.
      cbn [e_expire_time e_value]. rewrite He. cbn [option_map].
      rewrite bool_decide_eq_false_2; [reflexivity|].
      cbn [tick clock after_set after_call after_op].
      apply Qcle_not_lt. now apply Qcplus_le_mono_l. }
    rewrite Hmiss.
    replace (user (tick d w1)) with u by reflexivity.
    destruct (body func instance args kwargs u) as [[e'|v'] u']; cbn [fst snd].
    + split; reflexivity.
    + rewrite Hst. split; reflexivity.
Qed.

(** X9. The instance is no part of the key. Two nodes whose caches are on
    the same directory share their entries: after a call on the first
    stored its result, the same call on the second is a hit and returns
    that result, without calling the wrapped function on the second node. *)
Theorem nodes_sharing_directory_share_results cfg func (n1 n2 : BaseNode)
    args kwargs (c1 c2 : Cache) (v : value) (u : U) (d : Qc) w :
  cache n1 = inr c1 ->
  cache n2 = inr c2 ->
  directory c1 = directory c2 ->
  select (rows w c1) (__cache_key__ cfg func args kwargs) (clock w) = None ->
  body func n1 args kwargs (user w) = (inr v, u) ->
  match expire cfg with
  | None => True
  | Some e => (0 < e)%Qc /\ (d < e)%Qc
  end ->
  exists w1 w2 : world U,
    wrapper cfg func n1 args kwargs w = (inr v, w1) /\
    wrapper cfg func n2 args kwargs (tick d w1) = (inr v, w2) /\
    count is_call (log w2) = S (count is_call (log w)) /\
    user w2 = u.
Proof.
  intros Hc1 Hc2 Hdir Hsel Hbody Hexp.
  assert (Hst : stores (expire cfg) = true).
  { apply stores_positive. destruct (expire cfg); tauto. }
  set (key := __cache_key__ cfg func args kwargs) in *.
  set (w1 := after_set c1 key v (expire cfg) (tag cfg)
               (after_call (EvCall (fn func) n1 args kwargs) u
                  (after_op (EvGet c1 key true) w))).
  exists w1, (after_op (EvGet c2 key true) (tick d w1)).
  split; [|split].
  - rewrite wrapper_run. cbv zeta. fold key.
    rewrite Hc1, Hsel, Hbody. cbn [fst snd]. now rewrite Hst.
  - rewrite wrapper_run. cbv zeta. fold key. rewrite Hc2.
    rewrite <- (rows_same_directory (tick d w1) c1 c2 Hdir).
    subst w1. rewrite rows_tick, rows_after_set.
    unfold select. rewrite find_upsert. unfold live.
    cbn [e_expire_time e_value].
    destruct (expire cfg) as [e|]; cbn [option_map]; [|reflexivity].
    rewrite bool_decide_eq_true_2; [reflexivity|].
    cbn [tick clock after_set after_call after_op].
    apply Qcplus_lt_mono_l. tauto.
  - split; reflexivity.
Qed.

(** X10. A failure is not memoized: after a call in which the wrapped
    function raised, the same call made later runs the function again. *)
Theorem exception_not_memoized cfg func instance args kwargs (c : Cache)
    (e : exn) (u : U) (d : Qc) w :
  (0 <= d)%Qc ->
  cache instance = inr c ->
  select (rows w c) (__cache_key__ cfg func args kwargs) (clock w) = None ->
  body func instance args kwargs (user w) = (inl e, u) ->
  exists w1 : world U,
    wrapper cfg func instance args kwargs w = (inl e, w1) /\
    (wrapper cfg func instance args kwargs (tick d w1)).1 =
      (body func instance args kwargs u).1 /\
    count is_call (log (wrapper cfg func instance args kwargs (tick d w1)).2) =
      S (S (count is_call (log w))).
Proof.
  intros Hd Hc Hsel Hbody.
  set (key := __cache_key__ cfg func args kwargs) in *.
  set (w1 := after_call (EvCall (fn func) instance args kwargs) u
               (after_op (EvGet c key true) w)).
  exists w1. split.
  - rewrite wrapper_run. cbv zeta. fold key.
    now rewrite Hc, Hsel, Hbody.
  - rewrite wrapper_run. cbv zeta. fold key. rewrite Hc.
    assert (Hmiss : select (rows (tick d w1) c) key (clock (tick d w1)) = None).
    { subst w1. rewrite rows_tick, rows_after_call, rows_after_op.
      cbn [tick clock after_call after_op]. now apply select_miss_later. }
    rewrite Hmiss.
    replace (user (tick d w1)) with u by reflexivity.
    destruct (body func instance args kwargs u) as [[e'|v'] u']; cbn [fst snd].
    + split; reflexivity.
    + destruct (stores (expire cfg)); split; reflexivity.
Qed.

(** X11. A call writes at most the row of its own key in the directory of
    the cache it resolved: every other directory and every other key of
    that directory read as before, and the clock and the object counter are
    untouched. *)
Theorem writes_only_own_row cfg func instance args kwargs (c : Cache) w :
  cache instance = inr c ->
  let w' := (wrapper cfg func instance args kwargs w).2 in
  (forall dir : string, dir <> directory c -> disk w' !! dir = disk w !! dir) /\
  (forall key' : tuple,
      key' <> __cache_key__ cfg func args kwargs ->
      find key' (rows w' c) = find key' (rows w c)) /\
  clock w' = clock w /\
  next_id w' = next_id w.
Proof.
  intros Hc. cbv zeta. rewrite wrapper_run. cbv zeta. rewrite Hc.
  destruct (select _ _ _) as [v|]; [repeat split|].
  destruct (body func instance args kwargs (user w)) as [[e|v] u]; cbn [fst snd];
    [repeat split|].
  destruct (stores (expire cfg)); [|repeat split].
  cbn [snd]. split; [|split; [|split; reflexivity]].
  - intros dir Hdir. unfold after_set. cbn [disk after_call after_op].
    now rewrite lookup_insert_ne.
  - intros key' Hkey. rewrite rows_after_set. now rewrite find_upsert_ne.
Qed.

End WrapperMore.

(** [compute(5)] again on the cache that holds its result. *)
Lemma hit_returns_stored_value_witness :
  let w := (wrapper Sample.noexpire_cfg Sample.compute Sample.foo [VInt 5] []
              Sample.w_foo).2 in
  exists w' : world nat,
    wrapper Sample.noexpire_cfg Sample.compute Sample.foo [VInt 5] [] w
      = (inr (VInt 5), w') /\
    disk w' = disk w /\
    user w' = user w /\
    count is_call (log w') = count is_call (log w) /\
    count is_set (log w') = count is_set (log w) /\
    count is_get (log w') = S (count is_get (log w)).
Proof.
  cbv zeta.
  apply (hit_returns_stored_value Sample.noexpire_cfg Sample.compute Sample.foo
           [VInt 5] [] Sample.foo_cache (VInt 5)).
  - reflexivity.
  - vm_compute. reflexivity.
Defined.

Lemma unresolved_cache_raises_before_lookup_witness :
  no_owner Fixture.stray = true /\
  wrapper Sample.noexpire_cfg Sample.compute Fixture.stray [VInt 5] [] Sample.w_foo =
  (inl (AttributeError "'NoneType' object has no attribute 'cache'"), Sample.w_foo).
Proof.
  split; [reflexivity|].
  apply (unresolved_cache_raises_before_lookup Sample.noexpire_cfg Sample.compute
           Fixture.stray [VInt 5] [] Sample.w_foo).
  reflexivity.
Defined.

(** [compute(5)] under [@memoize("shared", tag="t", expire=10)]. *)
Lemma stored_result_readable_by_key_witness :
  let key := __cache_key__ Fixture.shared_cfg Sample.compute [VInt 5] [] in
  let w' := (wrapper Fixture.shared_cfg Sample.compute Sample.foo [VInt 5] []
               Sample.w_foo).2 in
  find key (rows w' Sample.foo_cache) =
    Some (mkEntry (VInt 5)
            (option_map (fun e => (clock Sample.w_foo + e)%Qc)
               (expire Fixture.shared_cfg))
            (tag Fixture.shared_cfg)) /\
  select (rows w' Sample.foo_cache) key (clock w') = Some (VInt 5).
Proof.
  apply (stored_result_readable_by_key Fixture.shared_cfg Sample.compute Sample.foo
           [VInt 5] [] Sample.foo_cache (VInt 5) 1%nat Sample.w_foo).
  - reflexivity.
  - vm_compute. reflexivity.
  - reflexivity.
  - reflexivity.
Defined.

(** [compute(5)] twice under [expire=10], ten seconds apart. *)
Lemma expired_entry_recomputes_witness :
  exists w1 : world nat,
    wrapper Sample.expire10_cfg Sample.compute Sample.foo [VInt 5] [] Sample.w_foo
      = (inr (VInt 5), w1) /\
    (wrapper Sample.expire10_cfg Sample.compute Sample.foo [VInt 5] []
       (tick (Q2Qc 10) w1)).1 =
      (body Sample.compute Sample.foo [VInt 5] [] 1%nat).1 /\
    count is_call (log (wrapper Sample.expire10_cfg Sample.compute Sample.foo
                          [VInt 5] [] (tick (Q2Qc 10) w1)).2) =
      S (S (count is_call (log Sample.w_foo))).
Proof.
  apply (expired_entry_recomputes Sample.expire10_cfg Sample.compute Sample.foo
           [VInt 5] [] Sample.foo_cache (VInt 5) 1%nat (Q2Qc 10) (Q2Qc 10)
           Sample.w_foo).
  - reflexivity.
  - reflexivity.
  - discriminate.
  - reflexivity.
  - vm_compute. reflexivity.
  - reflexivity.
Defined.

(** [whoami(0)] on the root and then on its grandchild: the grandchild is
    told the name of the root. *)
Lemma nodes_sharing_directory_share_results_witness :
  (body Fixture.whoami Fixture.c [VInt 0] [] 1%nat).1 = inr (VStr "c") /\
  exists w1 w2 : world nat,
    wrapper Fixture.shared_cfg Fixture.whoami Sample.foo [VInt 0] [] Sample.w_foo
      = (inr (VStr "foo"), w1) /\
    wrapper Fixture.shared_cfg Fixture.whoami Fixture.c [VInt 0] []
      (tick (Q2Qc 5) w1) = (inr (VStr "foo"), w2) /\
    count is_call (log w2) = S (count is_call (log Sample.w_foo)) /\
    user w2 = 1%nat.
Proof.
  split; [reflexivity|].
  apply (nodes_sharing_directory_share_results Fixture.shared_cfg Fixture.whoami
           Sample.foo Fixture.c [VInt 0] [] Sample.foo_cache Sample.foo_cache
           (VStr "foo") 1%nat (Q2Qc 5) Sample.w_foo).
  - reflexivity.
  - reflexivity.
  - reflexivity.
  - vm_compute. reflexivity.
  - reflexivity.
  - split; reflexivity.
Defined.

(** [broken(5)] twice, a second apart. *)
Lemma exception_not_memoized_witness :
  exists w1 : world nat,
    wrapper Sample.noexpire_cfg Sample.broken Sample.foo [VInt 5] [] Sample.w_foo
      = (inl (Raised "ValueError"), w1) /\
    (wrapper Sample.noexpire_cfg Sample.broken Sample.foo [VInt 5] []
       (tick (Q2Qc 1) w1)).1 =
      (body Sample.broken Sample.foo [VInt 5] [] 1%nat).1 /\
    count is_call (log (wrapper Sample.noexpire_cfg Sample.broken Sample.foo
                          [VInt 5] [] (tick (Q2Qc 1) w1)).2) =
      S (S (count is_call (log Sample.w_foo))).
Proof.
  apply (exception_not_memoized Sample.noexpire_cfg Sample.broken Sample.foo
           [VInt 5] [] Sample.foo_cache (Raised "ValueError") 1%nat (Q2Qc 1)
           Sample.w_foo).
  - discriminate.
  - reflexivity.
  - vm_compute. reflexivity.
  - reflexivity.
Defined.

Lemma writes_only_own_row_witness :
  let w' := (wrapper Sample.noexpire_cfg Sample.compute Sample.foo [VInt 5] []
               Sample.w_foo).2 in
  (forall dir : string,
      dir <> directory Sample.foo_cache -> disk w' !! dir = disk Sample.w_foo !! dir) /\
  (forall key' : tuple,
      key' <> __cache_key__ Sample.noexpire_cfg Sample.compute [VInt 5] [] ->
      find key' (rows w' Sample.foo_cache) = find key' (rows Sample.w_foo Sample.foo_cache)) /\
  clock w' = clock Sample.w_foo /\
  next_id w' = next_id Sample.w_foo.
Proof.
  apply (writes_only_own_row Sample.noexpire_cfg Sample.compute Sample.foo
           [VInt 5] [] Sample.foo_cache Sample.w_foo).
  reflexivity.
Defined.

(** ** Nodes: construction, ownership, paths *)

Section NodesMore.

Context {U : Type}.
Implicit Types (w : world U).

(** X12. A [Node] with the empty name is refused with [TreeError], with or
    without a parent and a location, and no cache is opened: the world is
    as it was. *)
Theorem empty_name_raises (cache_dir_path : option string) (parent : option BaseNode) w :
  exists msg : string,
    Node___init__ "" cache_dir_path parent w = (inl (TreeError msg), w).
Proof. eexists. reflexivity. Qed.

(** X13. A [Node] made under a parent opens no cache, also when it is given
    a location, which is dropped: the world is as it was, the node has no
    [_cache] and its [cache] is whatever the [cache] of its parent is, a
    cache or the error. *)
Theorem child_delegates_to_parent (name : string) (cache_dir_path : option string)
    (p : BaseNode) w :
  name <> "" ->
  exists child : BaseNode,
    Node___init__ name cache_dir_path (Some p) w = (inr child, w) /\
    parent child = Some p /\
    _cache child = None /\
    cache child = cache p.
Proof.
  intros Hname. exists (mkNode name (Some p) None).
  unfold Node___init__. destruct (decide (name = "")) as [E|_]; [contradiction|].
  repeat split.
Qed.

(** X14. A root [Node] opens a new [Cache] object on its location, the one
    given or else the default made of its name. Opening keeps what the
    directory holds and leaves every other directory alone; nothing is
    looked up, written or called. *)
Theorem root_opens_directory (name : string) (cache_dir_path : option string) w :
  name <> "" ->
  exists (A : Cache) (w' : world U),
    Node___init__ name cache_dir_path None w = (inr (mkNode name None (Some A)), w') /\
    id A = next_id w /\
    next_id w' = S (next_id w) /\
    directory A = default (String.append "/tmp/yazr_" (String.append name ".cache"))
                          cache_dir_path /\
    rows w' A = rows w A /\
    (forall dir : string, dir <> directory A -> disk w' !! dir = disk w !! dir) /\
    log w' = log w /\
    user w' = user w.
Proof.
  intros Hname. unfold Node___init__.
  destruct (decide (name = "")) as [E|_]; [contradiction|].
  destruct cache_dir_path as [path|]; cbn [default];
    eexists _, _; (split; [reflexivity|]); cbn [id directory next_id log user];
    repeat split.
  - unfold rows at 1. cbn [disk directory]. now rewrite lookup_insert_eq.
  - intros dir Hdir. cbn [disk]. now rewrite lookup_insert_ne.
  - unfold rows at 1. cbn [disk directory]. now rewrite lookup_insert_eq.
  - intros dir Hdir. cbn [disk]. now rewrite lookup_insert_ne.
Qed.

(** X15. The default location depends on the name alone: two roots of the
    same name, made one after the other without a location, own two
    different [Cache] objects on one directory, and the second finds there
    what the directory held before. *)
Theorem same_name_roots_share_directory (name : string) w :
  name <> "" ->
  exists (A1 A2 : Cache) (w1 w2 : world U),
    Node___init__ name None None w = (inr (mkNode name None (Some A1)), w1) /\
    Node___init__ name None None w1 = (inr (mkNode name None (Some A2)), w2) /\
    A1 <> A2 /\
    directory A1 = directory A2 /\
    rows w2 A2 = rows w A1.
Proof.
  intros Hname. unfold Node___init__.
  destruct (decide (name = "")) as [E|_]; [contradiction|].
  eexists _, _, _, _. split; [reflexivity|]. split; [reflexivity|].
  split; [|split].
  - intros [= H]. cbn [next_id] in H. lia.
  - reflexivity.
  - unfold rows. cbn [disk directory next_id]. now rewrite !lookup_insert_eq.
Qed.

End NodesMore.

(** X16. [cache] resolves exactly when the node or one of its ancestors
    owns a cache; otherwise it raises [AttributeError]. *)
Theorem cache_resolves_iff_owner (self : BaseNode) :
  ((exists c : Cache, cache self = inr c) <-> no_owner self = false) /\
  (is_AttributeError (cache self) = true <-> no_owner self = true).
Proof.
  induction self as [n [c|]|n p [c|] IH] using BaseNode_chain_ind; simpl.
  - split; split; try discriminate; eauto.
  - split; split; try discriminate; trivial. intros [c H]. discriminate.
  - split; split; try discriminate; eauto.
  - exact IH.
Qed.

(** X17. The cache a node resolves to is that of its nearest owner: going
    up from the node, the first node that has a [_cache]. *)
Theorem cache_is_nearest_owner (self : BaseNode) (c : Cache) :
  cache self = inr c <->
  exists (below above : list BaseNode) (owner : BaseNode),
    chain self = below ++ owner :: above /\
    Forall (fun n => _cache n = None) below /\
    _cache owner = Some c.
Proof.
  induction self as [n [c'|]|n p [c'|] IH] using BaseNode_chain_ind.
  - cbn [cache chain]. split.
    + intros [= ->]. exists [], [], (mkNode n None (Some c)). repeat split. constructor.
    + intros (below & above & owner & Hch & Hbelow & Hown).
      destruct below as [|x below].
      * injection Hch as <- _. cbn [_cache] in Hown. congruence.
      * injection Hch as <- Hrest. apply Forall_cons in Hbelow as [Hx _].
        discriminate Hx.
  - cbn [cache chain]. split; [discriminate|].
    intros (below & above & owner & Hch & Hbelow & Hown).
    destruct below as [|x below].
    + injection Hch as <- _. discriminate Hown.
    + injection Hch as _ Hrest. now destruct below.
  - cbn [cache chain]. split.
    + intros [= ->]. exists [], (chain p), (mkNode n (Some p) (Some c)).
      repeat split. constructor.
    + intros (below & above & owner & Hch & Hbelow & Hown).
      destruct below as [|x below].
      * injection Hch as <- _. cbn [_cache] in Hown. congruence.
      * injection Hch as <- Hrest. apply Forall_cons in Hbelow as [Hx _].
        discriminate Hx.
  - cbn [cache chain]. rewrite IH. split.
    + intros (below & above & owner & Hch & Hbelow & Hown).
      exists (mkNode n (Some p) None :: below), above, owner.
      rewrite Hch. repeat split; trivial. now constructor.
    + intros (below & above & owner & Hch & Hbelow & Hown).
      destruct below as [|x below].
      * injection Hch as <- _. discriminate Hown.
      * injection Hch as _ Hrest. apply Forall_cons in Hbelow as [_ Hbelow].
        now exists below, above, owner.
Qed.

Lemma append_assoc (a b c : string) :
  String.append (String.append a b) c = String.append a (String.append b c).
Proof.
  induction a as [|x a IH]; [reflexivity|].
  change (String x (String.append (String.append a b) c) =
          String x (String.append a (String.append b c))).
  now f_equal.
Qed.

Lemma join_snoc (sep : string) (names : list string) (n : string) :
  names <> [] ->
  join sep (names ++ [n]) = String.append (join sep names) (String.append sep n).
Proof.
  induction names as [|a names IH]; [contradiction|]. intros _.
  destruct names as [|b names].
  - reflexivity.
  - change (join sep ((a :: b :: names) ++ [n]))
      with (String.append a (String.append sep (join sep ((b :: names) ++ [n])))).
    rewrite IH by discriminate.
    change (join sep (a :: b :: names))
      with (String.append a (String.append sep (join sep (b :: names)))).
    now rewrite !append_assoc.
Qed.

Lemma chain_nonempty (self : BaseNode) : chain self <> [].
Proof. now destruct self. Qed.

(** X18. The display of a node is its class name and, in parentheses, its
    path: for a root the separator and its name, for any other node the
    path of its parent, the separator and its own name. *)
Theorem repr_extends_parent_path (class_name n : string) (c : option Cache) :
  __repr__ class_name (mkNode n None c) =
    String.append class_name (String.append "(/" (String.append n ")")) /\
  forall p : BaseNode,
    path_name (mkNode n (Some p) c) =
      String.append (path_name p) (String.append "/" n) /\
    __repr__ class_name (mkNode n (Some p) c) =
      String.append class_name
        (String.append "("
           (String.append (path_name p) (String.append "/" (String.append n ")")))).
Proof.
  split; [reflexivity|]. intros p.
  assert (Hpath : path_name (mkNode n (Some p) c) =
                  String.append (path_name p) (String.append "/" n)).
  { unfold path_name. cbn [chain List.rev]. rewrite List.map_app. cbn [List.map name].
    rewrite join_snoc.
    - now rewrite append_assoc.
    - intros H. apply map_eq_nil in H.
      apply (f_equal (@List.rev BaseNode)) in H. rewrite List.rev_involutive in H.
      now apply chain_nonempty in H. }
  split; [exact Hpath|].
  unfold __repr__. rewrite Hpath. now rewrite !append_assoc.
Qed.

Lemma child_delegates_to_parent_witness :
  exists child : BaseNode,
    Node___init__ "b" (Some "/var/cache/b") (Some Sample.foo) Sample.w_foo
      = (inr child, Sample.w_foo) /\
    parent child = Some Sample.foo /\
    _cache child = None /\
    cache child = cache Sample.foo.
Proof.
  apply (child_delegates_to_parent "b" (Some "/var/cache/b") Sample.foo Sample.w_foo).
  discriminate.
Defined.

Lemma root_opens_directory_witness :
  exists (A : Cache) (w' : world nat),
    Node___init__ "foo" (Some "/var/cache/foo") None Sample.w_foo
      = (inr (mkNode "foo" None (Some A)), w') /\
    id A = next_id Sample.w_foo /\
    next_id w' = S (next_id Sample.w_foo) /\
    directory A = "/var/cache/foo" /\
    rows w' A = rows Sample.w_foo A /\
    (forall dir : string, dir <> directory A -> disk w' !! dir = disk Sample.w_foo !! dir) /\
    log w' = log Sample.w_foo /\
    user w' = user Sample.w_foo.
Proof.
  apply (root_opens_directory "foo" (Some "/var/cache/foo") Sample.w_foo).
  discriminate.
Defined.

Lemma same_name_roots_share_directory_witness :
  exists (A1 A2 : Cache) (w1 w2 : world nat),
    Node___init__ "foo" None None Sample.w0 = (inr (mkNode "foo" None (Some A1)), w1) /\
    Node___init__ "foo" None None w1 = (inr (mkNode "foo" None (Some A2)), w2) /\
    A1 <> A2 /\
    directory A1 = directory A2 /\
    rows w2 A2 = rows Sample.w0 A1.
Proof.
  apply (same_name_roots_share_directory "foo" Sample.w0).
  discriminate.
Defined.

Lemma cache_resolves_iff_owner_witness :
  (exists c : Cache, cache Fixture.c = inr c) /\
  is_AttributeError (cache Fixture.stray) = true.
Proof.
  split.
  - apply (proj1 (cache_resolves_iff_owner Fixture.c)). reflexivity.
  - apply (proj2 (cache_resolves_iff_owner Fixture.stray)). reflexivity.
Defined.

Lemma cache_is_nearest_owner_witness :
  cache Fixture.c = inr Sample.foo_cache.
Proof.
  apply (cache_is_nearest_owner Fixture.c Sample.foo_cache).
  exists [Fixture.c; Fixture.b], [], Sample.foo.
  repeat split. repeat constructor.
Defined.
